(** * WAF IP set descriptors: the bounded batch differ, and the Transfer
      user delete path

    Source embedded here:
    - package [waf], which follows the [opensearch] and [sagemaker] packages
      in [internal/service/opensearch/domain_policy.go]: [ipSetUpdatesLimit],
      [DiffIPSetDescriptors], [updateIPSetDescriptors];
    - package [transfer], in [unnamed/part_001]: [userDelete].

    Go slices of descriptors are embedded as [list]s, [len] as [length],
    [append(s, x)] as [s ++ [x]]; module [GoSlice] embeds the differ a second
    time on slices that point into a memory, with the removal done in place
    as in the source, and the two are shown to agree on slices that do not
    overlap.  Remote calls are embedded by explicit state passing over a
    world that also keeps the log of the calls made. *)

From Stdlib Require Import Ascii String DecimalNat DecimalString List Permutation ZArith Arith Lia Bool PeanoNat.
Import ListNotations.
Local Open Scope nat_scope.
Local Open Scope list_scope.

Set Implicit Arguments.

(** ** Data model *)

(** One element of the [ip_set_descriptors] set.  In the source it is a
    [map[string]interface{}]; the resource schema gives it exactly the two
    required string keys ["type"] and ["value"], so it is a record here. *)
Record descriptor : Type := Descriptor
  { d_type : string;
    d_value : string }.

(** [waf.ChangeActionInsert] and [waf.ChangeActionDelete]. *)
Inductive ChangeAction : Type :=
| ChangeActionInsert
| ChangeActionDelete.

(** [waf.IPSetDescriptor]. *)
Record IPSetDescriptor : Type := MkIPSetDescriptor
  { Type_ : string;
    Value : string }.

(** [waf.IPSetUpdate]. *)
Record IPSetUpdate : Type := MkIPSetUpdate
  { Action : ChangeAction;
    Descriptor_ : IPSetDescriptor }.

(** A batch is what one [UpdateIPSet] call carries; a plan is what the
    differ returns. *)
Abbreviation Batch := (list IPSetUpdate) (only parsing).
Abbreviation BatchPlan := (list (list IPSetUpdate)) (only parsing).

(** Structural equality of two descriptors ([reflect.DeepEqual] on the two
    maps): both fields agree. *)
Definition descriptor_eqb (a b : descriptor) : bool :=
  String.eqb (d_type a) (d_type b) && String.eqb (d_value a) (d_value b).

Definition ChangeAction_eqb (a b : ChangeAction) : bool :=
  match a, b with
  | ChangeActionInsert, ChangeActionInsert => true
  | ChangeActionDelete, ChangeActionDelete => true
  | _, _ => false
  end.

(** The two update literals built in the loops of [DiffIPSetDescriptors]. *)
Definition deleteOf (d : descriptor) : IPSetUpdate :=
  {| Action := ChangeActionDelete;
     Descriptor_ := {| Type_ := d_type d; Value := d_value d |} |}.

Definition insertOf (d : descriptor) : IPSetUpdate :=
  {| Action := ChangeActionInsert;
     Descriptor_ := {| Type_ := d_type d; Value := d_value d |} |}.

(** ** The differ *)

(** [const ipSetUpdatesLimit = 1000]:
    WAF requires UpdateIPSet operations be split into batches of 1000. *)
Definition ipSetUpdatesLimit : nat := 1000.

(** Modelled from the spec: [sliceContainsMap] is called by
    [DiffIPSetDescriptors] but its body is not among the source files.  The
    spec describes it as the record comparator, structural equality used on
    a remove-on-first-match basis: the index of the first element of [l]
    that is structurally equal to [m], or nothing when there is none
    (Go's [(idx, true)] is [Some idx], [(-1, false)] is [None]). *)
Fixpoint sliceContainsMap (l : list descriptor) (m : descriptor) : option nat :=
  match l with
  | [] => None
  | t :: l' =>
      if descriptor_eqb m t then Some 0
      else match sliceContainsMap l' m with
           | Some i => Some (S i)
           | None => None
           end
  end.

(** [append(newD[:idx], newD[idx+1:]...)]. *)
Definition removeAt (idx : nat) (newD : list descriptor) : list descriptor :=
  firstn idx newD ++ skipn (idx + 1) newD.

(** The loop state of [DiffIPSetDescriptors]: the working value of [newD],
    the running batch [updates] and the closed batches [updatesBatches]. *)
Record diffState : Type := MkDiffState
  { st_newD : list descriptor;
    st_updates : Batch;
    st_updatesBatches : BatchPlan }.

Section Differ.

(** The capacity; [DiffIPSetDescriptors] fixes it to [ipSetUpdatesLimit]. *)
Variable limit : nat.

(** Body of [for _, od := range oldD]. *)
Definition oldBody (st : diffState) (od : descriptor) : diffState :=
  match sliceContainsMap (st_newD st) od with
  | Some idx =>
      (* newD = append(newD[:idx], newD[idx+1:]...); continue *)
      {| st_newD := removeAt idx (st_newD st);
         st_updates := st_updates st;
         st_updatesBatches := st_updatesBatches st |}
  | None =>
      if length (st_updates st) =? limit then
        {| st_newD := st_newD st;
           st_updates := [] ++ [deleteOf od];
           st_updatesBatches := st_updatesBatches st ++ [st_updates st] |}
      else
        {| st_newD := st_newD st;
           st_updates := st_updates st ++ [deleteOf od];
           st_updatesBatches := st_updatesBatches st |}
  end.

(** Body of [for _, nd := range newD]. *)
Definition newBody (acc : Batch * BatchPlan) (nd : descriptor)
  : Batch * BatchPlan :=
  let (updates, updatesBatches) := acc in
  if length updates =? limit then
    ([] ++ [insertOf nd], updatesBatches ++ [updates])
  else
    (updates ++ [insertOf nd], updatesBatches).

(** The function with the capacity as a parameter. *)
Definition diffWithLimit (oldD newD : list descriptor) : BatchPlan :=
  let st0 := {| st_newD := newD; st_updates := []; st_updatesBatches := [] |} in
  let st1 := fold_left oldBody oldD st0 in
  let (updates, updatesBatches) :=
    fold_left newBody (st_newD st1) (st_updates st1, st_updatesBatches st1) in
  updatesBatches ++ [updates].

End Differ.

(** [func DiffIPSetDescriptors(oldD, newD []interface{}) [][]*waf.IPSetUpdate]. *)
Definition DiffIPSetDescriptors (oldD newD : list descriptor) : BatchPlan :=
  diffWithLimit ipSetUpdatesLimit oldD newD.

(** ** Errors and remote calls *)

(** Go [error] values, as far as the embedded functions tell them apart:
    an AWS API error with its code, any other error, and the two ways the
    source builds a new error around a cause with [fmt.Errorf]: the verb
    [%s] keeps the text of the cause only, the verb [%w] wraps it. *)
Inductive error : Type :=
| AWSError (code message : string)
| OtherError (message : string)
| Errorf_s (format : string) (args : list string) (cause : error)
| Errorf_w (format : string) (args : list string) (cause : error).

(** [tfawserr.ErrCodeEquals(err, code)]: [err] is, or wraps, an AWS error
    with that code; [false] on a nil error. *)
Fixpoint errCodeEquals (e : error) (code : string) : bool :=
  match e with
  | AWSError c _ => String.eqb c code
  | OtherError _ => false
  | Errorf_s _ _ _ => false
  | Errorf_w _ _ cause => errCodeEquals cause code
  end.

Definition ErrCodeEquals (err : option error) (code : string) : bool :=
  match err with
  | None => false
  | Some e => errCodeEquals e code
  end.

(** The remote service behind a connection, together with the log of the
    calls that were submitted to it, oldest first. *)
Record World (Remote Call : Type) : Type := MkWorld
  { remote : Remote;
    calls : list Call }.

(** Submitting one call: the remote moves as the service decides, and the
    call is logged. *)
Definition submit {Remote Call : Type}
    (c : Call) (run : Remote -> Remote * option error)
    (w : World Remote Call) : World Remote Call * option error :=
  let (r', err) := run (remote w) in
  ({| remote := r'; calls := calls w ++ [c] |}, err).

Section UpdateIPSet.

(** The state of the WAF service. *)
Variable Remote : Type.

(** [wr.RetryWithToken] around [conn.UpdateIPSetWithContext] for the set
    [id] with the given [Updates]: the retryer and the service are not
    among the source files and are left abstract. *)
Variable UpdateIPSet : string -> Batch -> Remote -> Remote * option error.

(** The body of [for _, ipSetUpdates := range DiffIPSetDescriptors(...)]. *)
Fixpoint rangeBatches (id : string) (plan : BatchPlan)
    (w : World Remote (string * Batch))
  : World Remote (string * Batch) * option error :=
  match plan with
  | [] => (w, None)
  | ipSetUpdates :: rest =>
      let (w', err) := submit (id, ipSetUpdates) (UpdateIPSet id ipSetUpdates) w in
      match err with
      | Some e => (w', Some (Errorf_s "updating WAF IPSet: %s" [] e))
      | None => rangeBatches id rest w'
      end
  end.

(** [func updateIPSetDescriptors(ctx, id, oldD, newD, conn) error]. *)
Definition updateIPSetDescriptors (id : string) (oldD newD : list descriptor)
    (w : World Remote (string * Batch))
  : World Remote (string * Batch) * option error :=
  rangeBatches id (DiffIPSetDescriptors oldD newD) w.

(** The remote after submitting the batches of [plan] in order, as long as
    they succeed. *)
Fixpoint applyAll (id : string) (plan : BatchPlan) (r : Remote) : Remote :=
  match plan with
  | [] => r
  | b :: rest => applyAll id rest (fst (UpdateIPSet id b r))
  end.

(** Every batch of [plan] succeeds when submitted in order from [r]. *)
Fixpoint allSucceed (id : string) (plan : BatchPlan) (r : Remote) : Prop :=
  match plan with
  | [] => True
  | b :: rest =>
      snd (UpdateIPSet id b r) = None /\
      allSucceed id rest (fst (UpdateIPSet id b r))
  end.

End UpdateIPSet.

(** ** Transfer users *)

(** [transfer.ErrCodeResourceNotFoundException]. *)
Definition ErrCodeResourceNotFoundException : string :=
  "ResourceNotFoundException"%string.

(** The calls [userDelete] can make. *)
Inductive TransferCall : Type :=
| CallDeleteUser (serverID userName : string)
| CallWaitUserDeleted (serverID userName : string).

Section UserDelete.

(** The state of the Transfer service. *)
Variable Remote : Type.

(** [conn.DeleteUserWithContext] and [waitUserDeleted]: not among the
    source files, left abstract. *)
Variable DeleteUser : string -> string -> Remote -> Remote * option error.
Variable waitUserDeleted : string -> string -> Remote -> Remote * option error.

(** [UserCreateResourceID]: not among the source files, left abstract. *)
Variable UserCreateResourceID : string -> string -> string.

(** [func userDelete(ctx, conn, serverID, userName string) error]. *)
Definition userDelete (serverID userName : string)
    (w : World Remote TransferCall)
  : World Remote TransferCall * option error :=
  let id := UserCreateResourceID serverID userName in
  let (w1, err) :=
    submit (CallDeleteUser serverID userName) (DeleteUser serverID userName) w in
  if ErrCodeEquals err ErrCodeResourceNotFoundException then
    (w1, None)
  else
    match err with
    | Some e =>
        (w1, Some (Errorf_w "deleting Transfer User (%s): %w" [id] e))
    | None =>
        let (w2, err2) :=
          submit (CallWaitUserDeleted serverID userName)
                 (waitUserDeleted serverID userName) w1 in
        match err2 with
        | Some e2 =>
            (w2, Some (Errorf_w
                         "deleting Transfer User (%s): waiting for completion: %w"
                         [id] e2))
        | None => (w2, None)
        end
    end.

End UserDelete.

(** ** Value-level description of the differ, used to state the results *)

(** One append to the running batch with the rollover test in front of it:
    the four statements shared by the two loops of [DiffIPSetDescriptors]. *)
Definition push (limit : nat) (acc : Batch * BatchPlan) (u : IPSetUpdate)
  : Batch * BatchPlan :=
  if length (fst acc) =? limit
  then ([u], snd acc ++ [fst acc])
  else (fst acc ++ [u], snd acc).

(** The records of [oldD] that find no partner in the working [newD]. *)
Fixpoint unmatchedOld (oldD newD : list descriptor) : list descriptor :=
  match oldD with
  | [] => []
  | od :: rest =>
      match sliceContainsMap newD od with
      | Some idx => unmatchedOld rest (removeAt idx newD)
      | None => od :: unmatchedOld rest newD
      end
  end.

(** What is left of [newD] after the pass over [oldD]. *)
Fixpoint leftoverNew (oldD newD : list descriptor) : list descriptor :=
  match oldD with
  | [] => newD
  | od :: rest =>
      match sliceContainsMap newD od with
      | Some idx => leftoverNew rest (removeAt idx newD)
      | None => leftoverNew rest newD
      end
  end.

(** The operations of a diff, in the order they are emitted. *)
Definition operations (oldD newD : list descriptor) : list IPSetUpdate :=
  map deleteOf (unmatchedOld oldD newD) ++ map insertOf (leftoverNew oldD newD).

(** Membership test by structural equality. *)
Definition memb (r : descriptor) (l : list descriptor) : bool :=
  existsb (descriptor_eqb r) l.

Definition isDelete (u : IPSetUpdate) : bool :=
  ChangeAction_eqb (Action u) ChangeActionDelete.

Definition isInsert (u : IPSetUpdate) : bool :=
  ChangeAction_eqb (Action u) ChangeActionInsert.

Definition nonEmpty (b : Batch) : bool :=
  negb (length b =? 0).

(** [n] distinct descriptors, for the examples. *)
Definition sampleDescriptors (n : nat) : list descriptor :=
  map (fun i => Descriptor "IPV4"%string (NilEmpty.string_of_uint (Nat.to_uint i)))
      (seq 0 n).

(** The batches made of a sequence of operations pushed one by one. *)
Definition batchesOf (limit : nat) (ops : list IPSetUpdate) : BatchPlan :=
  snd (fold_left (push limit) ops ([], [])) ++
  [fst (fold_left (push limit) ops ([], []))].

(** The operations held by a running batch and the closed batches. *)
Definition flat (acc : Batch * BatchPlan) : list IPSetUpdate :=
  concat (snd acc) ++ fst acc.

(** Closed batches are full, the running batch is within the capacity, and
    it is empty only before the first append. *)
Definition batching (limit : nat) (acc : Batch * BatchPlan) : Prop :=
  Forall (fun b => length b = limit) (snd acc) /\
  length (fst acc) <= limit /\
  (fst acc = [] -> snd acc = []).

(** [ceil(a / b)] on natural numbers. *)
Definition ceilDiv (a b : nat) : nat := (a + b - 1) / b.

(** ** Sample services *)

(** A WAF service for the examples: it keeps the batches applied so far, and
    refuses the call made when [failAt] batches have been applied. *)
Definition sampleUpdateIPSet (failAt : nat) (id : string) (b : list IPSetUpdate)
    (r : list (list IPSetUpdate)) : list (list IPSetUpdate) * option error :=
  if length r =? failAt
  then (r, Some (AWSError "WAFInternalErrorException" "try again"))
  else (r ++ [b], None).

Definition sameUser (serverID userName : string) (u : string * string) : bool :=
  String.eqb (fst u) serverID && String.eqb (snd u) userName.

(** A Transfer service for the examples: the users it holds. *)
Definition sampleDeleteUser (serverID userName : string)
    (r : list (string * string)) : list (string * string) * option error :=
  if existsb (sameUser serverID userName) r
  then (filter (fun u => negb (sameUser serverID userName u)) r, None)
  else (r, Some (AWSError ErrCodeResourceNotFoundException "Unknown user")).

(** A Transfer service that refuses every delete. *)
Definition deniedDeleteUser (serverID userName : string)
    (r : list (string * string)) : list (string * string) * option error :=
  (r, Some (AWSError "AccessDeniedException" "not authorized")).

Definition sampleWaitUserDeleted (serverID userName : string)
    (r : list (string * string)) : list (string * string) * option error :=
  (r, None).

Definition sampleUserCreateResourceID (serverID userName : string) : string :=
  (serverID ++ "/" ++ userName)%string.

(** ** The differ on Go slices

    [DiffIPSetDescriptors] removes a matched record from [newD] with
    [append(newD[:idx], newD[idx+1:]...)], which moves the tail of [newD] one
    place down inside the array that [newD] points to.  This module embeds
    the function on slices that point into one memory of descriptors, to show
    that the value-level embedding above is what the source computes on the
    arguments it is called with: two slices that do not overlap
    ([schema.Set.List()] builds a fresh slice on every call in
    [resourceIPSetUpdate]; the other two callers pass [nil] for one side). *)
Module GoSlice.

(** The memory that holds the elements of the descriptor slices. *)
Definition memory : Type := nat -> descriptor.

(** A slice header: where its first element is, and its length.  The
    capacity plays no part: the only append on a descriptor slice shortens
    it. *)
Record slice : Type := Slice
  { ptr : nat;
    len : nat }.

(** The elements of [s], in order. *)
Definition elems (mem : memory) (s : slice) : list descriptor :=
  map (fun j => mem (ptr s + j)) (seq 0 (len s)).

(** A memory that holds [l] from address 0 on. *)
Definition ofList (l : list descriptor) : memory :=
  fun p => nth p l (Descriptor "" "").

(** [append(newD[:idx], newD[idx+1:]...)]: the elements after [idx] move one
    place down in place; the result is [newD]'s array with one element less. *)
Definition removeAtInPlace (mem : memory) (newD : slice) (idx : nat)
  : memory * slice :=
  (fun p =>
     if (ptr newD + idx <=? p) && (p + 1 <? ptr newD + len newD)
     then mem (p + 1) else mem p,
   {| ptr := ptr newD; len := len newD - 1 |}).

Record state : Type := MkState
  { s_mem : memory;
    s_newD : slice;
    s_updates : list IPSetUpdate;
    s_updatesBatches : list (list IPSetUpdate) }.

(** Body of [for _, od := range oldD], at index [i]: [od] is read from the
    memory as it is when the iteration starts. *)
Definition oldBodyInPlace (limit : nat) (oldD : slice) (st : state) (i : nat) : state :=
  let od := s_mem st (ptr oldD + i) in
  match sliceContainsMap (elems (s_mem st) (s_newD st)) od with
  | Some idx =>
      let (mem', newD') := removeAtInPlace (s_mem st) (s_newD st) idx in
      {| s_mem := mem'; s_newD := newD';
         s_updates := s_updates st;
         s_updatesBatches := s_updatesBatches st |}
  | None =>
      if length (s_updates st) =? limit then
        {| s_mem := s_mem st; s_newD := s_newD st;
           s_updates := [] ++ [deleteOf od];
           s_updatesBatches := s_updatesBatches st ++ [s_updates st] |}
      else
        {| s_mem := s_mem st; s_newD := s_newD st;
           s_updates := s_updates st ++ [deleteOf od];
           s_updatesBatches := s_updatesBatches st |}
  end.

(** [DiffIPSetDescriptors] on slices: the plan, and the memory it leaves. *)
Definition DiffIPSetDescriptorsInPlace (mem : memory) (oldD newD : slice)
  : memory * list (list IPSetUpdate) :=
  let st0 := {| s_mem := mem; s_newD := newD;
                s_updates := []; s_updatesBatches := [] |} in
  let st1 := fold_left (oldBodyInPlace ipSetUpdatesLimit oldD) (seq 0 (len oldD)) st0 in
  let (updates, updatesBatches) :=
    fold_left (newBody ipSetUpdatesLimit) (elems (s_mem st1) (s_newD st1))
              (s_updates st1, s_updatesBatches st1) in
  (s_mem st1, updatesBatches ++ [updates]).

(** The two slices share no element. *)
Definition separate (oldD newD : slice) : Prop :=
  ptr oldD + len oldD <= ptr newD \/ ptr newD + len newD <= ptr oldD.

End GoSlice.

(** * The callers, and the other functions of the same files

    Embedded below, from [internal/service/opensearch/domain_policy.go]:
    - package [waf]: [resourceIPSetCreate], [resourceIPSetRead],
      [resourceIPSetUpdate], [resourceIPSetDelete], the callers of
      [updateIPSetDescriptors];
    - package [sagemaker]: [decodeAppID], [resourceAppDelete];
    - package [opensearch]: [resourceDomainPolicyRead],
      [resourceDomainPolicyUpsert], [resourceDomainPolicyDelete];
    and from [unnamed/part_001], package [transfer]: [resourceUserDelete],
    [expandHomeDirectoryMappings], [flattenHomeDirectoryMappings],
    [expandUserPOSIXUser], [flattenUserPOSIXUser].

    A [schema.ResourceData] is a record of the attributes the function
    reads or sets; [diag.Diagnostics] is the list of the errors appended with
    [sdkdiag.AppendErrorf]; what the AWS SDK, the plugin SDK and the helpers
    outside these files do is a variable of the section. *)

(** Submitting a call whose answer is more than an error. *)
Definition invoke {Remote Call A : Type}
    (c : Call) (run : Remote -> Remote * A)
    (w : World Remote Call) : World Remote Call * A :=
  let (r', out) := run (remote w) in
  ({| remote := r'; calls := calls w ++ [c] |}, out).

(** [aws/arn.ARN] of the AWS SDK. *)
Record ARN : Type := MkARN
  { Partition : string;
    Service : string;
    Region : string;
    AccountID : string;
    Resource : string }.

(** ** The WAF IP set resource *)

(** [waf.ErrCodeNonexistentItemException] of the AWS SDK. *)
Definition ErrCodeNonexistentItemException : string :=
  "WAFNonexistentItemException"%string.

(** The calls the IP set resource makes on its connection. *)
Inductive WafCall : Type :=
| CallCreateIPSet (name : string)
| CallGetIPSet (id : string)
| CallUpdateIPSet (id : string) (updates : list IPSetUpdate)
| CallDeleteIPSet (id : string).

(** [waf.IPSet], as [GetIPSet] answers it. *)
Record IPSet : Type := MkIPSet
  { IPSetId : string;
    Name : string;
    IPSetDescriptors : list IPSetDescriptor }.

(** The [schema.ResourceData] of an [aws_waf_ipset]: its ID, its attributes,
    and for [ip_set_descriptors] both the prior state and the value in
    force, each set given as the list its [List()] returns. *)
Record IPSetResourceData : Type := MkIPSetResourceData
  { rd_id : string;
    rd_name : string;
    rd_arn : string;
    rd_ip_set_descriptors : list descriptor;
    rd_prior_ip_set_descriptors : list descriptor }.

(** [d.SetId(id)]. *)
Definition ipSetSetId (d : IPSetResourceData) (id : string) : IPSetResourceData :=
  {| rd_id := id;
     rd_name := rd_name d;
     rd_arn := rd_arn d;
     rd_ip_set_descriptors := rd_ip_set_descriptors d;
     rd_prior_ip_set_descriptors := rd_prior_ip_set_descriptors d |}.

(** Two sets hold the same elements. *)
Definition sameSet (a b : list descriptor) : bool :=
  forallb (fun r => memb r b) a && forallb (fun r => memb r a) b.

(** [d.HasChange("ip_set_descriptors")]: the SDK compares the prior and the
    new value with [schema.Set.Equal]. *)
Definition ipSetHasChange (d : IPSetResourceData) : bool :=
  negb (sameSet (rd_prior_ip_set_descriptors d) (rd_ip_set_descriptors d)).

Section IPSetResource.

(** The state of the WAF service. *)
Variable Remote : Type.

(** The AWS client in [meta]: its partition and its account. *)
Variable clientPartition : string.
Variable clientAccountID : string.

(** [arn.ARN.String] of the AWS SDK, left abstract. *)
Variable ARN_String : ARN -> string.

(** The connection: [wr.RetryWithToken] around [conn.CreateIPSetWithContext]
    (answering the new [IPSetId]), [conn.GetIPSetWithContext], and
    [wr.RetryWithToken] around [conn.UpdateIPSetWithContext] and
    [conn.DeleteIPSetWithContext]. *)
Variable CreateIPSet : string -> Remote -> Remote * (string + error).
Variable GetIPSet : string -> Remote -> Remote * (IPSet + error).
Variable UpdateIPSet : string -> list IPSetUpdate -> Remote -> Remote * option error.
Variable DeleteIPSet : string -> Remote -> Remote * option error.

(** [updateIPSetDescriptors] on the connection of the resource: its calls
    are logged as [UpdateIPSet] calls. *)
Definition updateIPSetDescriptorsOn (id : string) (oldD newD : list descriptor)
    (w : World Remote WafCall) : World Remote WafCall * option error :=
  let (w', err) :=
    updateIPSetDescriptors UpdateIPSet id oldD newD
      {| remote := remote w; calls := [] |} in
  ({| remote := remote w';
      calls := calls w ++ map (fun c => CallUpdateIPSet (fst c) (snd c)) (calls w') |},
   err).

(** [func resourceIPSetRead(ctx, d, meta) diag.Diagnostics]. *)
Definition resourceIPSetRead (d : IPSetResourceData) (w : World Remote WafCall)
  : World Remote WafCall * IPSetResourceData * list error :=
  let (w1, resp) := invoke (CallGetIPSet (rd_id d)) (GetIPSet (rd_id d)) w in
  match resp with
  | inr err =>
      if ErrCodeEquals (Some err) ErrCodeNonexistentItemException then
        (w1, ipSetSetId d "", [])
      else
        (w1, d, [Errorf_s "reading WAF IPSet (%s): %s" [rd_name d] err])
  | inl ipSet =>
      let descriptors :=
        map (fun descriptor =>
               {| d_type := Type_ descriptor; d_value := Value descriptor |})
            (IPSetDescriptors ipSet) in
      let arn := {| Partition := clientPartition;
                    Service := "waf";
                    Region := "";
                    AccountID := clientAccountID;
                    Resource := ("ipset/" ++ rd_id d)%string |} in
      (w1,
       {| rd_id := rd_id d;
          rd_name := Name ipSet;
          rd_arn := ARN_String arn;
          rd_ip_set_descriptors := descriptors;
          rd_prior_ip_set_descriptors := rd_prior_ip_set_descriptors d |},
       [])
  end.

(** [func resourceIPSetCreate(ctx, d, meta) diag.Diagnostics]. *)
Definition resourceIPSetCreate (d : IPSetResourceData) (w : World Remote WafCall)
  : World Remote WafCall * IPSetResourceData * list error :=
  let (w1, out) := invoke (CallCreateIPSet (rd_name d)) (CreateIPSet (rd_name d)) w in
  match out with
  | inr err =>
      (w1, d, [Errorf_s "creating WAF IPSet (%s): %s" [rd_name d] err])
  | inl id =>
      let d1 := ipSetSetId d id in
      if 0 <? length (rd_ip_set_descriptors d1) then
        let (w2, err) :=
          updateIPSetDescriptorsOn (rd_id d1) [] (rd_ip_set_descriptors d1) w1 in
        match err with
        | Some e => (w2, d1, [Errorf_s "Setting IP Descriptors: %s" [] e])
        | None => resourceIPSetRead d1 w2
        end
      else
        resourceIPSetRead d1 w1
  end.

(** [func resourceIPSetUpdate(ctx, d, meta) diag.Diagnostics]. *)
Definition resourceIPSetUpdate (d : IPSetResourceData) (w : World Remote WafCall)
  : World Remote WafCall * IPSetResourceData * list error :=
  if ipSetHasChange d then
    let (oldD, newD) := (rd_prior_ip_set_descriptors d, rd_ip_set_descriptors d) in
    let (w1, err) := updateIPSetDescriptorsOn (rd_id d) oldD newD w in
    match err with
    | Some e => (w1, d, [Errorf_s "updating WAF IPSet: %s" [] e])
    | None => resourceIPSetRead d w1
    end
  else
    resourceIPSetRead d w.

(** [func resourceIPSetDelete(ctx, d, meta) diag.Diagnostics]. *)
Definition resourceIPSetDelete (d : IPSetResourceData) (w : World Remote WafCall)
  : World Remote WafCall * list error :=
  let oldDescriptors := rd_ip_set_descriptors d in
  let deleteIPSet (w0 : World Remote WafCall) :=
    let (w2, err) := submit (CallDeleteIPSet (rd_id d)) (DeleteIPSet (rd_id d)) w0 in
    match err with
    | Some e => (w2, [Errorf_s "deleting WAF IPSet: %s" [] e])
    | None => (w2, [])
    end in
  if 0 <? length oldDescriptors then
    let (w1, err) := updateIPSetDescriptorsOn (rd_id d) oldDescriptors [] w in
    match err with
    | Some e => (w1, [Errorf_s "deleting IPSetDescriptors: %s" [] e])
    | None => deleteIPSet w1
    end
  else
    deleteIPSet w.

End IPSetResource.

(** The [UpdateIPSet] requests among some calls. *)
Definition updateRequests (cs : list WafCall) : list (list IPSetUpdate) :=
  flat_map (fun c => match c with
                     | CallUpdateIPSet _ updates => [updates]
                     | _ => []
                     end) cs.

(** ** Strings *)

(** [strings.HasPrefix(s, prefix)], answering what follows the prefix. *)
Fixpoint stripPrefix (prefix s : string) : option string :=
  match prefix, s with
  | EmptyString, _ => Some s
  | String a prefix', String b s' =>
      if Ascii.eqb a b then stripPrefix prefix' s' else None
  | String _ _, EmptyString => None
  end.

(** [strings.TrimPrefix(s, prefix)]. *)
Definition TrimPrefix (s prefix : string) : string :=
  match stripPrefix prefix s with
  | Some rest => rest
  | None => s
  end.

(** [strings.Split(s, sep)] for a separator of one character: the pieces of
    [s] between the separators, one more than there are separators. *)
Fixpoint Split (s : string) (sep : ascii) : list string :=
  match s with
  | EmptyString => [EmptyString]
  | String c rest =>
      if Ascii.eqb c sep then EmptyString :: Split rest sep
      else match Split rest sep with
           | [] => [String c EmptyString]
           | piece :: pieces => String c piece :: pieces
           end
  end.

(** [strings.Contains(s, substr)]. *)
Fixpoint Contains (s substr : string) : bool :=
  match stripPrefix substr s with
  | Some _ => true
  | None =>
      match s with
      | EmptyString => false
      | String _ rest => Contains rest substr
      end
  end.

(** The number of occurrences of a character. *)
Fixpoint countChar (c : ascii) (s : string) : nat :=
  match s with
  | EmptyString => 0
  | String a rest => (if Ascii.eqb a c then 1 else 0) + countChar c rest
  end.

(** ** SageMaker apps *)

(** What [decodeAppID] returns for an error: the error of [arn.Parse], or
    the error it builds itself with
    [fmt.Errorf("unexpected format of ID (%q), expected ...", appResourceName)]. *)
Inductive decodeAppIDError : Type :=
| ArnParseError (err : error)
| UnexpectedFormat (appResourceName : string).

(** [tfawserr.ErrMessageContains(err, code, message)]: [err] is, or wraps,
    an AWS error with that code whose message contains [message]. *)
Fixpoint errMessageContains (e : error) (code message : string) : bool :=
  match e with
  | AWSError c m => String.eqb c code && Contains m message
  | OtherError _ => false
  | Errorf_s _ _ _ => false
  | Errorf_w _ _ cause => errMessageContains cause code message
  end.

(** The calls [resourceAppDelete] can make: [DeleteApp] with the fields of
    its input, and [WaitAppDeleted]. *)
Inductive AppCall : Type :=
| CallDeleteApp (appName appType domainID : string)
                (userProfileName spaceName : option string)
| CallWaitAppDeleted (domainID userProfileOrSpaceName appType appName : string).

(** The [schema.ResourceData] of an [aws_sagemaker_app], as far as
    [resourceAppDelete] reads it.  An optional string attribute that is not
    set reads as the empty string, for which [GetOk] answers [ok = false]. *)
Record AppResourceData : Type := MkAppResourceData
  { app_id : string;
    app_name : string;
    app_type : string;
    app_domain_id : string;
    app_user_profile_name : string;
    app_space_name : string }.

(** [d.GetOk(key)] on a string attribute. *)
Definition GetOk (v : string) : option string :=
  match v with
  | EmptyString => None
  | _ => Some v
  end.

Section SageMakerApp.

(** [arn.Parse] of the AWS SDK, left abstract. *)
Variable arnParse : string -> ARN + error.

(** The [sagemaker.AppType...] constants of the AWS SDK. *)
Variable AppTypeJupyterServer : string.
Variable AppTypeKernelGateway : string.
Variable AppTypeTensorBoard : string.
Variable AppTypeRstudioServerPro : string.
Variable AppTypeRsessionGateway : string.

(** [sagemaker.ErrCodeResourceNotFound] of the AWS SDK. *)
Variable ErrCodeResourceNotFound : string.

(** [func decodeAppID(id string) (string, string, string, string, error)]. *)
Definition decodeAppID (id : string)
  : (string * string * string * string) + decodeAppIDError :=
  match arnParse id with
  | inr err => inr (ArnParseError err)
  | inl appArn =>
      let appResourceName := TrimPrefix (Resource appArn) "app/" in
      let parts := Split appResourceName "/" in
      if negb (length parts =? 4) then
        inr (UnexpectedFormat appResourceName)
      else
        let domainID := nth 0 parts EmptyString in
        let userProfileOrSpaceName := nth 1 parts EmptyString in
        let appType := nth 2 parts EmptyString in
        let appType :=
          if String.eqb appType "jupyterserver" then AppTypeJupyterServer
          else if String.eqb appType "kernelgateway" then AppTypeKernelGateway
          else if String.eqb appType "tensorboard" then AppTypeTensorBoard
          else if String.eqb appType "rstudioserverpro" then AppTypeRstudioServerPro
          else if String.eqb appType "rsessiongateway" then AppTypeRsessionGateway
          else appType in
        let appName := nth 3 parts EmptyString in
        inl (domainID, userProfileOrSpaceName, appType, appName)
  end.

(** The state of the SageMaker service. *)
Variable Remote : Type.

(** [conn.DeleteAppWithContext] and [WaitAppDeleted], left abstract. *)
Variable DeleteApp :
  string -> string -> string -> option string -> option string ->
  Remote -> Remote * option error.
Variable WaitAppDeleted :
  string -> string -> string -> string -> Remote -> Remote * option error.

(** [func resourceAppDelete(ctx, d, meta) diag.Diagnostics]. *)
Definition resourceAppDelete (d : AppResourceData) (w : World Remote AppCall)
  : World Remote AppCall * list error :=
  let appName := app_name d in
  let appType := app_type d in
  let domainID := app_domain_id d in
  let userProfileOrSpaceName := EmptyString in
  let (inputUserProfileName, userProfileOrSpaceName) :=
    match GetOk (app_user_profile_name d) with
    | Some v => (Some v, v)
    | None => (None, userProfileOrSpaceName)
    end in
  let (inputSpaceName, userProfileOrSpaceName) :=
    match GetOk (app_space_name d) with
    | Some v => (Some v, v)
    | None => (None, userProfileOrSpaceName)
    end in
  let wait (w0 : World Remote AppCall) :=
    let (w2, err) :=
      submit (CallWaitAppDeleted domainID userProfileOrSpaceName appType appName)
             (WaitAppDeleted domainID userProfileOrSpaceName appType appName) w0 in
    match err with
    | Some e =>
        if negb (errCodeEquals e ErrCodeResourceNotFound) then
          (w2, [Errorf_s "waiting for SageMaker App (%s) to delete: %s" [app_id d] e])
        else (w2, [])
    | None => (w2, [])
    end in
  let (w1, err) :=
    submit (CallDeleteApp appName appType domainID inputUserProfileName inputSpaceName)
           (DeleteApp appName appType domainID inputUserProfileName inputSpaceName) w in
  match err with
  | Some e =>
      if errMessageContains e "ValidationException" "has already been deleted" ||
         errMessageContains e "ValidationException"
           "previously failed and was automatically deleted"
      then (w1, [])
      else if negb (errCodeEquals e ErrCodeResourceNotFound) then
        (w1, [Errorf_s "deleting SageMaker App (%s): %s" [app_id d] e])
      else wait w1
  | None => wait w1
  end.

End SageMakerApp.

(** ** Transfer users: the attribute converters *)

(** [aws.StringValue]: the string behind a pointer, empty for nil. *)
Definition StringValue (p : option string) : string :=
  match p with
  | Some s => s
  | None => EmptyString
  end.

(** [aws.Int64Value] and [aws.Int64ValueSlice]. *)
Definition Int64Value (p : option Z) : Z :=
  match p with
  | Some n => n
  | None => 0%Z
  end.

Definition Int64ValueSlice (ps : list (option Z)) : list Z :=
  map Int64Value ps.

(** [transfer.HomeDirectoryMapEntry]. *)
Record HomeDirectoryMapEntry : Type := MkHomeDirectoryMapEntry
  { Entry : option string;
    Target : option string }.

(** One element of [home_directory_mappings]: a map with the keys
    ["entry"] and ["target"]. *)
Record homeDirectoryMapping : Type := MkHomeDirectoryMapping
  { hm_entry : string;
    hm_target : string }.

(** [func expandHomeDirectoryMappings(in []interface{}) []*transfer.HomeDirectoryMapEntry]. *)
Definition expandHomeDirectoryMappings (input : list homeDirectoryMapping)
  : list HomeDirectoryMapEntry :=
  fold_left
    (fun mappings config =>
       let m := {| Entry := Some (hm_entry config);
                   Target := Some (hm_target config) |} in
       mappings ++ [m])
    input [].

(** [func flattenHomeDirectoryMappings(mappings []*transfer.HomeDirectoryMapEntry) []interface{}]:
    the slice [l] is made with the length of [mappings] and filled by
    index. *)
Definition flattenHomeDirectoryMappings (mappings : list HomeDirectoryMapEntry)
  : list homeDirectoryMapping :=
  map (fun m => {| hm_entry := StringValue (Entry m);
                   hm_target := StringValue (Target m) |})
      mappings.

(** [transfer.PosixProfile]. *)
Record PosixProfile : Type := MkPosixProfile
  { Gid : option Z;
    Uid : option Z;
    SecondaryGids : list (option Z) }.

(** The one element of [posix_profile] as the configuration gives it: the
    integers ["gid"] and ["uid"], and ["secondary_gids"], which is a set
    (given as the list its [List()] returns) or is missing. *)
Record posixProfileConfig : Type := MkPosixProfileConfig
  { pc_gid : Z;
    pc_uid : Z;
    pc_secondary_gids : option (list Z) }.

(** The one element of [posix_profile] as [flattenUserPOSIXUser] builds it. *)
Record posixProfileState : Type := MkPosixProfileState
  { ps_gid : Z;
    ps_uid : Z;
    ps_secondary_gids : list Z }.

Section UserPOSIX.

(** [flex.ExpandInt64Set], not among the source files, left abstract. *)
Variable ExpandInt64Set : list Z -> list (option Z).

(** [func expandUserPOSIXUser(pUser []interface{}) *transfer.PosixProfile];
    an element of [pUser] can be nil. *)
Definition expandUserPOSIXUser (pUser : list (option posixProfileConfig))
  : option PosixProfile :=
  match pUser with
  | [] => None
  | None :: _ => None
  | Some m :: _ =>
      let posixUser := {| Gid := Some (pc_gid m);
                          Uid := Some (pc_uid m);
                          SecondaryGids := [] |} in
      match pc_secondary_gids m with
      | Some v =>
          if 0 <? length v then
            Some {| Gid := Gid posixUser;
                    Uid := Uid posixUser;
                    SecondaryGids := ExpandInt64Set v |}
          else Some posixUser
      | None => Some posixUser
      end
  end.

End UserPOSIX.

(** [func flattenUserPOSIXUser(posixUser *transfer.PosixProfile) []interface{}]. *)
Definition flattenUserPOSIXUser (posixUser : option PosixProfile)
  : list posixProfileState :=
  match posixUser with
  | None => []
  | Some p =>
      [{| ps_gid := Int64Value (Gid p);
          ps_uid := Int64Value (Uid p);
          ps_secondary_gids := Int64ValueSlice (SecondaryGids p) |}]
  end.

Section ResourceUserDelete.

Variable Remote : Type.
Variable DeleteUser : string -> string -> Remote -> Remote * option error.
Variable waitUserDeleted : string -> string -> Remote -> Remote * option error.
Variable UserCreateResourceID : string -> string -> string.

(** [UserParseResourceID], not among the source files, left abstract. *)
Variable UserParseResourceID : string -> (string * string) + error.

(** [func resourceUserDelete(ctx, d, meta) diag.Diagnostics], on the ID of
    the resource. *)
Definition resourceUserDelete (id : string) (w : World Remote TransferCall)
  : World Remote TransferCall * list error :=
  match UserParseResourceID id with
  | inr err => (w, [Errorf_s "parsing Transfer User ID: %s" [] err])
  | inl (serverID, userName) =>
      let (w1, err) :=
        userDelete DeleteUser waitUserDeleted UserCreateResourceID
          serverID userName w in
      match err with
      | Some e => (w1, [e])
      | None => (w1, [])
      end
  end.

End ResourceUserDelete.

(** ** OpenSearch domain policies *)

(** [schema.TimeoutUpdate] and [schema.TimeoutDelete], the keys of
    [d.Timeout]. *)
Inductive TimeoutKey : Type :=
| TimeoutUpdate
| TimeoutDelete.

(** The calls the domain policy resource makes. *)
Inductive DomainPolicyCall : Type :=
| CallUpdateDomainConfig (domainName accessPolicies : string)
| CallWaitForDomainUpdate (domainName : string) (timeout : TimeoutKey)
| CallFindDomainByName (domainName : string).

(** The [schema.ResourceData] of an [aws_opensearch_domain_policy]. *)
Record DomainPolicyResourceData : Type := MkDomainPolicyResourceData
  { dp_id : string;
    dp_domain_name : string;
    dp_access_policies : string;
    dp_is_new_resource : bool }.



Section DomainPolicy.

Variable Remote : Type.

(** [structure.NormalizeJsonString], [verify.PolicyToSet] and
    [tfresource.NotFound], left abstract. *)
Variable NormalizeJsonString : string -> string * option error.
Variable PolicyToSet : string -> string -> string + error.
Variable NotFound : error -> bool.

(** [conn.UpdateDomainConfigWithContext], [waitForDomainUpdate] and
    [FindDomainByName] (answering the [AccessPolicies] of the domain), left
    abstract. *)
Variable UpdateDomainConfig : string -> string -> Remote -> Remote * option error.
Variable waitForDomainUpdate : string -> TimeoutKey -> Remote -> Remote * option error.
Variable FindDomainByName : string -> Remote -> Remote * (option string + error).



(** [func resourceDomainPolicyDelete(ctx, d, meta) diag.Diagnostics]. *)
Definition resourceDomainPolicyDelete (d : DomainPolicyResourceData)
    (w : World Remote DomainPolicyCall)
  : World Remote DomainPolicyCall * list error :=
  let (w1, err) :=
    submit (CallUpdateDomainConfig (dp_domain_name d) "")
           (UpdateDomainConfig (dp_domain_name d) "") w in
  match err with
  | Some e =>
      (w1, [Errorf_s "deleting OpenSearch Domain Policy (%s): %s" [dp_id d] e])
  | None =>
      let (w2, err) :=
        submit (CallWaitForDomainUpdate (dp_domain_name d) TimeoutDelete)
               (waitForDomainUpdate (dp_domain_name d) TimeoutDelete) w1 in
      match err with
      | Some e =>
          (w2,
           [Errorf_s
              "deleting OpenSearch Domain Policy (%s): waiting for completion: %s"
              [dp_id d] e])
      | None => (w2, [])
      end
  end.

End DomainPolicy.

(** ** Samples for the SageMaker examples *)

(** A parser of ARNs without colons in the resource, for the examples. *)
Definition sampleArnParse (id : string) : ARN + error :=
  match Split id ":" with
  | [pre; partition; service; region; account; resource] =>
      if String.eqb pre "arn" then
        inl {| Partition := partition; Service := service; Region := region;
               AccountID := account; Resource := resource |}
      else inr (OtherError "arn: invalid prefix")
  | _ => inr (OtherError "arn: not enough sections")
  end.

Definition sampleAppID : string :=
  "arn:aws:sagemaker:us-west-2:123456789012:app/d-abc/user1/jupyterserver/default".

(** A SageMaker service that answers every delete with the given error, and
    one that accepts every delete; a wait that ends with the given error. *)
Definition failingDeleteApp (e : error)
    (appName appType domainID : string) (userProfileName spaceName : option string)
    (r : list string) : list string * option error :=
  (r, Some e).

Definition acceptingDeleteApp
    (appName appType domainID : string) (userProfileName spaceName : option string)
    (r : list string) : list string * option error :=
  (r, None).

Definition endingWaitAppDeleted (e : option error)
    (domainID userProfileOrSpaceName appType appName : string)
    (r : list string) : list string * option error :=
  (r, e).

Definition sampleApp : AppResourceData :=
  {| app_id := sampleAppID;
     app_name := "default";
     app_type := "JupyterServer";
     app_domain_id := "d-abc";
     app_user_profile_name := "";
     app_space_name := "team-space" |}.

(** A WAF service that accepts every [DeleteIPSet], for the examples. *)
Definition sampleDeleteIPSet (id : string) (r : list (list IPSetUpdate))
  : list (list IPSetUpdate) * option error :=
  (r, None).

(** ** Basic facts *)

Lemma descriptor_eqb_eq (a b : descriptor) :
  descriptor_eqb a b = true <-> a = b.
Proof.
  unfold descriptor_eqb. rewrite andb_true_iff, !String.eqb_eq.
  destruct a as [ta va], b as [tb vb]; simpl. split.
  - intros [-> ->]. reflexivity.
  - intros E. inversion E. auto.
Qed.

Lemma descriptor_eqb_refl (a : descriptor) : descriptor_eqb a a = true.
Proof. apply descriptor_eqb_eq. reflexivity. Qed.

Lemma descriptor_eqb_neq (a b : descriptor) :
  descriptor_eqb a b = false <-> a <> b.
Proof.
  rewrite <- descriptor_eqb_eq. destruct (descriptor_eqb a b); split; congruence.
Qed.

Lemma descriptor_eq_dec (a b : descriptor) : {a = b} + {a <> b}.
Proof.
  destruct (descriptor_eqb a b) eqn:E.
  - left. apply descriptor_eqb_eq. exact E.
  - right. apply descriptor_eqb_neq. exact E.
Defined.

Lemma memb_In (r : descriptor) (l : list descriptor) :
  memb r l = true <-> In r l.
Proof.
  unfold memb. rewrite existsb_exists. split.
  - intros [x [Hx E]]. apply descriptor_eqb_eq in E. subst. exact Hx.
  - intros H. exists r. split; [exact H | apply descriptor_eqb_refl].
Qed.

Lemma memb_not_In (r : descriptor) (l : list descriptor) :
  memb r l = false <-> ~ In r l.
Proof.
  rewrite <- memb_In. destruct (memb r l); split; congruence.
Qed.

Lemma deleteOf_inj (a b : descriptor) : deleteOf a = deleteOf b -> a = b.
Proof. destruct a, b. unfold deleteOf. simpl. intros E. inversion E. reflexivity. Qed.

Lemma insertOf_inj (a b : descriptor) : insertOf a = insertOf b -> a = b.
Proof. destruct a, b. unfold insertOf. simpl. intros E. inversion E. reflexivity. Qed.

Lemma deleteOf_insertOf (a b : descriptor) : deleteOf a <> insertOf b.
Proof. unfold deleteOf, insertOf. intros E. inversion E. Qed.

(** *** The comparator *)

Lemma sliceContainsMap_None (l : list descriptor) (m : descriptor) :
  sliceContainsMap l m = None <-> ~ In m l.
Proof.
  induction l as [|t l IH]; simpl.
  - split; auto.
  - destruct (descriptor_eqb m t) eqn:E.
    + apply descriptor_eqb_eq in E. subst. split; [discriminate | intros H; exfalso; auto].
    + apply descriptor_eqb_neq in E.
      destruct (sliceContainsMap l m) eqn:F.
      * split; [discriminate|]. intros H. exfalso.
        assert (~ In m l) as G by (intros G; apply H; right; exact G).
        apply IH in G. discriminate.
      * split; [|reflexivity]. intros _ [H|H]; [congruence|].
        destruct IH as [IH _]. apply IH; auto.
Qed.

Lemma sliceContainsMap_Some (l : list descriptor) (m : descriptor) (idx : nat) :
  sliceContainsMap l m = Some idx ->
  exists l1 l2,
    l = l1 ++ m :: l2 /\ length l1 = idx /\ ~ In m l1 /\
    removeAt idx l = l1 ++ l2.
Proof.
  revert idx. induction l as [|t l IH]; simpl; intros idx H.
  - discriminate.
  - destruct (descriptor_eqb m t) eqn:E.
    + apply descriptor_eqb_eq in E. subst. inversion H; subst.
      exists [], l. repeat split; auto.
    + apply descriptor_eqb_neq in E.
      destruct (sliceContainsMap l m) as [i|] eqn:F; [|discriminate].
      inversion H; subst.
      destruct (IH i eq_refl) as [l1 [l2 [H1 [H2 [H3 H4]]]]].
      exists (t :: l1), l2. repeat split.
      * simpl. rewrite H1 at 1. reflexivity.
      * simpl. rewrite H2. reflexivity.
      * intros [G|G]; [congruence | auto].
      * unfold removeAt in *. simpl. rewrite H4. reflexivity.
Qed.

Lemma sliceContainsMap_In (l : list descriptor) (m : descriptor) :
  In m l -> exists idx, sliceContainsMap l m = Some idx.
Proof.
  intros H. destruct (sliceContainsMap l m) as [i|] eqn:E.
  - exists i. reflexivity.
  - apply sliceContainsMap_None in E. contradiction.
Qed.

Lemma sliceContainsMap_head (l : list descriptor) (m : descriptor) :
  sliceContainsMap (m :: l) m = Some 0.
Proof. simpl. rewrite descriptor_eqb_refl. reflexivity. Qed.

(** *** The loops, in terms of [push] *)

Section DifferFacts.

Variable limit : nat.

Lemma oldBody_found (st : diffState) (od : descriptor) (idx : nat) :
  sliceContainsMap (st_newD st) od = Some idx ->
  oldBody limit st od =
    {| st_newD := removeAt idx (st_newD st);
       st_updates := st_updates st;
       st_updatesBatches := st_updatesBatches st |}.
Proof. intros H. unfold oldBody. rewrite H. reflexivity. Qed.

Lemma oldBody_missing (st : diffState) (od : descriptor) :
  sliceContainsMap (st_newD st) od = None ->
  oldBody limit st od =
    let acc := push limit (st_updates st, st_updatesBatches st) (deleteOf od) in
    {| st_newD := st_newD st;
       st_updates := fst acc;
       st_updatesBatches := snd acc |}.
Proof.
  intros H. unfold oldBody, push. rewrite H. simpl.
  destruct (length (st_updates st) =? limit); reflexivity.
Qed.

Lemma newBody_push (acc : Batch * BatchPlan) (nd : descriptor) :
  newBody limit acc nd = push limit acc (insertOf nd).
Proof.
  unfold newBody, push. destruct acc as [u bs]. simpl.
  destruct (length u =? limit); reflexivity.
Qed.

Lemma fold_oldBody (oldD newD : list descriptor) (u : Batch) (bs : BatchPlan) :
  fold_left (oldBody limit) oldD
    {| st_newD := newD; st_updates := u; st_updatesBatches := bs |} =
  let acc := fold_left (push limit) (map deleteOf (unmatchedOld oldD newD)) (u, bs) in
  {| st_newD := leftoverNew oldD newD;
     st_updates := fst acc;
     st_updatesBatches := snd acc |}.
Proof.
  revert newD u bs. induction oldD as [|od rest IH]; intros newD u bs.
  - reflexivity.
  - simpl fold_left at 1. simpl unmatchedOld. simpl leftoverNew.
    destruct (sliceContainsMap newD od) as [idx|] eqn:E.
    + rewrite (@oldBody_found _ od idx) by exact E. simpl. apply IH.
    + rewrite oldBody_missing by exact E. simpl st_newD. simpl st_updates.
      simpl st_updatesBatches. cbv zeta.
      destruct (push limit (u, bs) (deleteOf od)) as [u' bs'] eqn:P.
      simpl fst. simpl snd. rewrite IH. simpl map. simpl fold_left.
      rewrite P. reflexivity.
Qed.

Lemma fold_newBody (newD : list descriptor) (acc : Batch * BatchPlan) :
  fold_left (newBody limit) newD acc =
  fold_left (push limit) (map insertOf newD) acc.
Proof.
  revert acc. induction newD as [|nd rest IH]; intros acc.
  - reflexivity.
  - simpl. rewrite newBody_push. apply IH.
Qed.

(** The plan is the operation sequence, pushed one by one. *)
Lemma diffWithLimit_operations (oldD newD : list descriptor) :
  diffWithLimit limit oldD newD = batchesOf limit (operations oldD newD).
Proof.
  unfold diffWithLimit, operations, batchesOf. rewrite fold_oldBody. cbv zeta.
  simpl st_newD. simpl st_updates. simpl st_updatesBatches.
  rewrite <- surjective_pairing, fold_newBody, fold_left_app.
  match goal with
  | |- (let (_, _) := ?X in _) = _ =>
      transitivity (snd X ++ [fst X]); [destruct X; reflexivity | reflexivity]
  end.
Qed.

(** *** Batching invariants *)

Lemma flat_push (acc : Batch * BatchPlan) (x : IPSetUpdate) :
  flat (push limit acc x) = flat acc ++ [x].
Proof.
  unfold flat, push. destruct acc as [u bs]. simpl.
  destruct (length u =? limit); simpl.
  - rewrite concat_app. simpl. rewrite app_nil_r. reflexivity.
  - rewrite app_assoc. reflexivity.
Qed.

Lemma flat_fold_push (ops : list IPSetUpdate) (acc : Batch * BatchPlan) :
  flat (fold_left (push limit) ops acc) = flat acc ++ ops.
Proof.
  revert acc. induction ops as [|x ops IH]; intros acc; simpl.
  - rewrite app_nil_r. reflexivity.
  - rewrite IH, flat_push, <- app_assoc. reflexivity.
Qed.

Hypothesis limit_pos : 0 < limit.

Lemma batching_init : batching limit ([], []).
Proof. unfold batching. simpl. repeat split; auto. lia. Qed.

Lemma batching_push (acc : Batch * BatchPlan) (x : IPSetUpdate) :
  batching limit acc -> batching limit (push limit acc x) /\ fst (push limit acc x) <> [].
Proof.
  unfold batching, push. destruct acc as [u bs]. simpl.
  intros [Hfull [Hle Hemp]].
  destruct (length u =? limit) eqn:E; simpl.
  - apply Nat.eqb_eq in E. repeat split.
    + apply Forall_app. split; [exact Hfull|]. constructor; [exact E | constructor].
    + lia.
    + discriminate.
    + discriminate.
  - apply Nat.eqb_neq in E. repeat split.
    + exact Hfull.
    + rewrite length_app. simpl. lia.
    + intros H. destruct u; discriminate.
    + intros H. destruct u; discriminate.
Qed.

Lemma batching_fold (ops : list IPSetUpdate) (acc : Batch * BatchPlan) :
  batching limit acc -> batching limit (fold_left (push limit) ops acc).
Proof.
  revert acc. induction ops as [|x ops IH]; intros acc H; simpl.
  - exact H.
  - apply IH. apply batching_push. exact H.
Qed.

Lemma fold_push_nonempty (ops : list IPSetUpdate) (acc : Batch * BatchPlan) :
  batching limit acc -> ops <> [] -> fst (fold_left (push limit) ops acc) <> [].
Proof.
  revert acc. induction ops as [|x ops IH]; intros acc H N; [congruence|].
  simpl. destruct ops as [|y ops'].
  - simpl. apply batching_push. exact H.
  - apply IH; [apply batching_push; exact H | discriminate].
Qed.

End DifferFacts.

(** *** The plan and its flattening *)

Lemma ipSetUpdatesLimit_pos : 0 < ipSetUpdatesLimit.
Proof. unfold ipSetUpdatesLimit. lia. Qed.

Lemma concat_snoc {A : Type} (ls : list (list A)) (l : list A) :
  concat (ls ++ [l]) = concat ls ++ l.
Proof. rewrite concat_app. simpl. rewrite app_nil_r. reflexivity. Qed.

Lemma concat_batchesOf (limit : nat) (ops : list IPSetUpdate) :
  concat (batchesOf limit ops) = ops.
Proof.
  unfold batchesOf. rewrite concat_snoc.
  change (flat (fold_left (push limit) ops ([], [])) = ops).
  rewrite flat_fold_push. reflexivity.
Qed.

Lemma concat_diffWithLimit (limit : nat) (oldD newD : list descriptor) :
  concat (diffWithLimit limit oldD newD) = operations oldD newD.
Proof. rewrite diffWithLimit_operations. apply concat_batchesOf. Qed.

Lemma concat_DiffIPSetDescriptors (oldD newD : list descriptor) :
  concat (DiffIPSetDescriptors oldD newD) = operations oldD newD.
Proof. apply concat_diffWithLimit. Qed.

(** Shape of every plan: full batches, then a last batch within the
    capacity, which is empty only when there is no operation at all. *)
Lemma batchesOf_shape (limit : nat) (ops : list IPSetUpdate) :
  0 < limit ->
  exists (init : BatchPlan) (last : Batch),
    batchesOf limit ops = init ++ [last] /\
    Forall (fun b => length b = limit) init /\
    length last <= limit /\
    (last = [] -> init = []) /\
    (ops <> [] -> last <> []).
Proof.
  intros Hpos. unfold batchesOf.
  pose proof (@batching_fold limit Hpos ops ([], [])
                (batching_init Hpos)) as B.
  pose proof (@fold_push_nonempty limit Hpos ops ([], [])
                (batching_init Hpos)) as N.
  destruct (fold_left (push limit) ops ([], [])) as [u bs].
  destruct B as [B1 [B2 B3]]. simpl in *.
  exists bs, u. repeat split; auto.
Qed.

Lemma diffWithLimit_shape (limit : nat) (oldD newD : list descriptor) :
  0 < limit ->
  exists (init : BatchPlan) (last : Batch),
    diffWithLimit limit oldD newD = init ++ [last] /\
    Forall (fun b => length b = limit) init /\
    length last <= limit /\
    (last = [] -> init = []) /\
    (operations oldD newD <> [] -> last <> []).
Proof. rewrite diffWithLimit_operations. apply batchesOf_shape. Qed.

Lemma length_concat_full {A : Type} (n : nat) (ls : list (list A)) :
  Forall (fun b => length b = n) ls -> length (concat ls) = n * length ls.
Proof.
  induction 1 as [|b ls Hb _ IH]; simpl.
  - lia.
  - rewrite length_app, IH, Hb. lia.
Qed.

(** ** Batch size bound *)

(** C2.  Every batch of the plan returned by [DiffIPSetDescriptors] except
    the last holds exactly [ipSetUpdatesLimit = 1000] operations, and the last
    one holds between 0 and 1000. *)
Theorem DiffIPSetDescriptors_batch_size_bound (oldD newD : list descriptor) :
  ipSetUpdatesLimit = 1000 /\
  exists (init : BatchPlan) (last : Batch),
    DiffIPSetDescriptors oldD newD = init ++ [last] /\
    Forall (fun b => length b = ipSetUpdatesLimit) init /\
    0 <= length last <= ipSetUpdatesLimit.
Proof.
  split; [reflexivity|].
  destruct (@diffWithLimit_shape ipSetUpdatesLimit oldD newD ipSetUpdatesLimit_pos)
    as [init [last [E [F [L _]]]]].
  exists init, last. repeat split; auto. lia.
Qed.

(** ** Ordering *)

Lemma nth_error_map_deleteOf (l : list descriptor) (i : nat) (u : IPSetUpdate) :
  nth_error (map deleteOf l) i = Some u -> Action u = ChangeActionDelete.
Proof.
  rewrite nth_error_map. destruct (nth_error l i); simpl; [|discriminate].
  intros E. inversion E. reflexivity.
Qed.

Lemma nth_error_map_insertOf (l : list descriptor) (i : nat) (u : IPSetUpdate) :
  nth_error (map insertOf l) i = Some u -> Action u = ChangeActionInsert.
Proof.
  rewrite nth_error_map. destruct (nth_error l i); simpl; [|discriminate].
  intros E. inversion E. reflexivity.
Qed.

(** C3.  In the flattened operation sequence of [DiffIPSetDescriptors], every
    Delete operation stands before every Insert operation: a Delete at
    position [i] and an Insert at position [j] have [i < j]. *)
Theorem DiffIPSetDescriptors_deletes_before_inserts
    (oldD newD : list descriptor) (i j : nat) (u v : IPSetUpdate) :
  nth_error (concat (DiffIPSetDescriptors oldD newD)) i = Some u ->
  nth_error (concat (DiffIPSetDescriptors oldD newD)) j = Some v ->
  Action u = ChangeActionDelete ->
  Action v = ChangeActionInsert ->
  i < j.
Proof.
  rewrite concat_DiffIPSetDescriptors. unfold operations.
  set (ds := map deleteOf (unmatchedOld oldD newD)).
  set (ins := map insertOf (leftoverNew oldD newD)).
  intros Hu Hv Au Av.
  assert (i < length ds) as Hi.
  { destruct (Nat.lt_ge_cases i (length ds)) as [H|H]; [exact H|].
    rewrite nth_error_app2 in Hu by exact H.
    apply nth_error_map_insertOf in Hu. congruence. }
  assert (length ds <= j) as Hj.
  { destruct (Nat.lt_ge_cases j (length ds)) as [H|H]; [|exact H].
    rewrite nth_error_app1 in Hv by exact H.
    apply nth_error_map_deleteOf in Hv. congruence. }
  lia.
Qed.

(** ** No-op diff *)

Lemma removeAt_0 (a : descriptor) (l : list descriptor) : removeAt 0 (a :: l) = l.
Proof. reflexivity. Qed.

Lemma unmatchedOld_same (S : list descriptor) : unmatchedOld S S = [].
Proof.
  induction S as [|a S IH]; [reflexivity|].
  cbn [unmatchedOld sliceContainsMap]. rewrite descriptor_eqb_refl, removeAt_0.
  exact IH.
Qed.

Lemma leftoverNew_same (S : list descriptor) : leftoverNew S S = [].
Proof.
  induction S as [|a S IH]; [reflexivity|].
  cbn [leftoverNew sliceContainsMap]. rewrite descriptor_eqb_refl, removeAt_0.
  exact IH.
Qed.

Lemma diffWithLimit_same (limit : nat) (S : list descriptor) :
  diffWithLimit limit S S = [[]].
Proof.
  rewrite diffWithLimit_operations.
  unfold operations. rewrite unmatchedOld_same, leftoverNew_same.
  reflexivity.
Qed.


(** ** Batch count *)

(** [ceilDiv a b] is the least number of groups of [b] that hold [a]. *)
Lemma ceilDiv_spec (a b : nat) :
  0 < b -> a <= ceilDiv a b * b /\ ceilDiv a b * b < a + b.
Proof.
  intros H. unfold ceilDiv.
  pose proof (Nat.div_mod_eq (a + b - 1) b) as E.
  pose proof (Nat.mod_upper_bound (a + b - 1) b) as U.
  nia.
Qed.

Lemma ceilDiv_full_plus (n k r : nat) :
  1 <= r <= n -> ceilDiv (n * k + r) n = k + 1.
Proof.
  intros H. unfold ceilDiv.
  symmetry. apply Nat.div_unique with (r := r - 1); lia.
Qed.

Lemma ceilDiv_0 (n : nat) : 0 < n -> ceilDiv 0 n = 0.
Proof.
  intros H. unfold ceilDiv. apply Nat.div_small. lia.
Qed.

Lemma filter_nonEmpty_full (n : nat) (bs : list (list IPSetUpdate)) :
  0 < n -> Forall (fun b => length b = n) bs -> filter nonEmpty bs = bs.
Proof.
  intros Hn. induction 1 as [|b bs Hb _ IH]; simpl.
  - reflexivity.
  - unfold nonEmpty at 1. rewrite Hb.
    destruct (n =? 0) eqn:E; [apply Nat.eqb_eq in E; lia|].
    simpl. rewrite IH. reflexivity.
Qed.

Lemma length_delete_insert (ops : list IPSetUpdate) :
  length (filter isDelete ops) + length (filter isInsert ops) = length ops.
Proof.
  induction ops as [|u ops IH]; simpl; [reflexivity|].
  unfold isDelete at 1, isInsert at 1.
  destruct (Action u); simpl; lia.
Qed.

(** The number of non-empty batches, and the sizes of all batches, from the
    number of operations. *)
Lemma batchesOf_count (limit : nat) (ops : list IPSetUpdate) :
  0 < limit ->
  length (filter nonEmpty (batchesOf limit ops)) =
  ceilDiv (length ops) limit.
Proof.
  intros Hpos.
  destruct (@batchesOf_shape limit ops Hpos)
    as [init [last [E [F [L [Z NZ]]]]]].
  pose proof (concat_batchesOf limit ops) as C.
  rewrite E in *. rewrite concat_snoc in C. rewrite <- C.
  rewrite filter_app, length_app, (filter_nonEmpty_full Hpos F).
  rewrite length_app, (length_concat_full F).
  destruct last as [|x last].
  - rewrite (Z eq_refl). simpl. rewrite Nat.mul_0_r. simpl.
    rewrite ceilDiv_0 by exact Hpos. reflexivity.
  - rewrite ceilDiv_full_plus by (simpl in *; lia). reflexivity.
Qed.

Lemma diffWithLimit_count (limit : nat) (oldD newD : list descriptor) :
  0 < limit ->
  length (filter nonEmpty (diffWithLimit limit oldD newD)) =
  ceilDiv (length (operations oldD newD)) limit.
Proof. rewrite diffWithLimit_operations. apply batchesOf_count. Qed.

Lemma map_length_full {A : Type} (n : nat) (ls : list (list A)) :
  Forall (fun b => length b = n) ls -> map (@length A) ls = repeat n (length ls).
Proof.
  induction 1 as [|b ls Hb _ IH]; simpl; [reflexivity|].
  rewrite Hb, IH. reflexivity.
Qed.

Lemma batchesOf_sizes (limit : nat) (ops : list IPSetUpdate) (k r : nat) :
  0 < limit ->
  length ops = limit * k + r ->
  1 <= r <= limit ->
  map (@length IPSetUpdate) (batchesOf limit ops) = repeat limit k ++ [r].
Proof.
  intros Hpos T R.
  destruct (@batchesOf_shape limit ops Hpos)
    as [init [last [E [F [L [Z NZ]]]]]].
  pose proof (concat_batchesOf limit ops) as C.
  rewrite E in *. rewrite concat_snoc in C.
  assert (length ops = limit * length init + length last) as T'.
  { rewrite <- C, length_app, (length_concat_full F). reflexivity. }
  assert (last <> []) as NE.
  { apply NZ. intros H. rewrite H in T. simpl in T. lia. }
  assert (1 <= length last) as L1 by (destruct last; [congruence | simpl; lia]).
  assert (length init = k /\ length last = r) as [Ek Er].
  { rewrite T in T'.
    assert (length init = k) as Ek; [|split; [exact Ek | subst k; lia]].
    destruct (Nat.lt_trichotomy (length init) k) as [H|[H|H]]; [|exact H|]; nia. }
  rewrite map_app, (map_length_full F), Ek. simpl. rewrite Er. reflexivity.
Qed.

Lemma diffWithLimit_sizes (limit : nat) (oldD newD : list descriptor) (k r : nat) :
  0 < limit ->
  length (operations oldD newD) = limit * k + r ->
  1 <= r <= limit ->
  map (@length IPSetUpdate) (diffWithLimit limit oldD newD) = repeat limit k ++ [r].
Proof. rewrite diffWithLimit_operations. apply batchesOf_sizes. Qed.

Lemma operations_nil_old (newD : list descriptor) :
  operations [] newD = map insertOf newD.
Proof. reflexivity. Qed.

(** C5.  The number of non-empty batches returned by [DiffIPSetDescriptors]
    is [ceil(total / 1000)], where [total] is the number of Delete operations
    plus the number of Insert operations of the plan; and for [old] empty and
    [new] of 2500 distinct records the plan is three batches of sizes 1000,
    1000 and 500. *)
Theorem DiffIPSetDescriptors_batch_count :
  (forall oldD newD : list descriptor,
      let ops := concat (DiffIPSetDescriptors oldD newD) in
      let total := length (filter isDelete ops) + length (filter isInsert ops) in
      length (filter nonEmpty (DiffIPSetDescriptors oldD newD)) =
      ceilDiv total 1000) /\
  (forall newD : list descriptor,
      NoDup newD ->
      length newD = 2500 ->
      map (@length IPSetUpdate) (DiffIPSetDescriptors [] newD) = [1000; 1000; 500]).
Proof.
  split.
  - intros oldD newD ops total. subst total ops.
    rewrite length_delete_insert, concat_DiffIPSetDescriptors.
    apply (@diffWithLimit_count ipSetUpdatesLimit oldD newD ipSetUpdatesLimit_pos).
  - intros newD _ L.
    apply (@diffWithLimit_sizes ipSetUpdatesLimit [] newD 2 500 ipSetUpdatesLimit_pos).
    + rewrite operations_nil_old, length_map, L. reflexivity.
    + unfold ipSetUpdatesLimit. lia.
Qed.

(** ** The last batch when the total is a multiple of the capacity *)

(** When the number of operations is a positive multiple of the capacity,
    every batch of the plan is full: the rollover test stands in front of the
    append, so a full running batch is closed only when one more operation
    arrives. *)
Lemma batchesOf_exact_multiple (limit : nat) (ops : list IPSetUpdate) :
  0 < limit ->
  0 < length ops ->
  length ops mod limit = 0 ->
  length (batchesOf limit ops) = length ops / limit /\
  Forall (fun b => length b = limit) (batchesOf limit ops).
Proof.
  intros Hpos T M.
  destruct (@batchesOf_shape limit ops Hpos)
    as [init [last [E [F [L [Z NZ]]]]]].
  pose proof (concat_batchesOf limit ops) as C.
  rewrite E in *. rewrite concat_snoc in C.
  assert (length ops = length last + length init * limit) as T'.
  { rewrite <- C, length_app, (length_concat_full F). lia. }
  assert (last <> []) as NE.
  { apply NZ. intros H. rewrite H in T. simpl in T. lia. }
  assert (1 <= length last) as L1 by (destruct last; [congruence | simpl; lia]).
  assert (length last = limit) as LL.
  { rewrite T', Nat.Div0.mod_add in M.
    destruct (Nat.eq_dec (length last) limit) as [H|H]; [exact H|].
    rewrite Nat.mod_small in M by lia. lia. }
  split.
  - rewrite length_app. simpl. rewrite T', LL.
    replace (limit + length init * limit) with ((length init + 1) * limit) by lia.
    rewrite Nat.div_mul by lia. reflexivity.
  - apply Forall_app. split; [exact F|]. constructor; [exact LL | constructor].
Qed.

Lemma diffWithLimit_exact_multiple (limit : nat) (oldD newD : list descriptor) :
  0 < limit ->
  0 < length (operations oldD newD) ->
  length (operations oldD newD) mod limit = 0 ->
  length (diffWithLimit limit oldD newD) = length (operations oldD newD) / limit /\
  Forall (fun b => length b = limit) (diffWithLimit limit oldD newD).
Proof. rewrite diffWithLimit_operations. apply batchesOf_exact_multiple. Qed.

(** C6, as the code has it.  When the total number of emitted operations is
    a positive exact multiple of 1000, the plan of [DiffIPSetDescriptors]
    consists of exactly [total / 1000] batches of exactly 1000 operations
    each: no empty batch is appended, and the plan ends with a full batch. *)
Theorem DiffIPSetDescriptors_exact_multiple (oldD newD : list descriptor) :
  let plan := DiffIPSetDescriptors oldD newD in
  let total := length (concat plan) in
  0 < total ->
  total mod 1000 = 0 ->
  length plan = total / 1000 /\
  Forall (fun b => length b = 1000) plan /\
  length (last plan []) = 1000.
Proof.
  intros plan total T M. subst total plan.
  rewrite concat_DiffIPSetDescriptors in *.
  destruct (@diffWithLimit_exact_multiple ipSetUpdatesLimit oldD newD
              ipSetUpdatesLimit_pos T M) as [H1 H2].
  fold (DiffIPSetDescriptors oldD newD) in H1, H2.
  repeat split; [exact H1 | exact H2 |].
  destruct (@diffWithLimit_shape ipSetUpdatesLimit oldD newD ipSetUpdatesLimit_pos)
    as [init [lst [E _]]].
  fold (DiffIPSetDescriptors oldD newD) in E. rewrite E in *.
  rewrite last_last. apply Forall_app in H2. destruct H2 as [_ H2].
  inversion H2; subst. assumption.
Qed.

(** C6, as the claim states it, fails: for [old] empty and [new] of 1000
    records the total is 1000, a positive exact multiple of the capacity, and
    the plan is the single full batch: its last batch holds 1000 operations
    and is not empty. *)
Lemma DiffIPSetDescriptors_no_trailing_empty_batch :
  let plan := DiffIPSetDescriptors [] (sampleDescriptors 1000) in
  length (concat plan) = 1000 /\
  1000 mod ipSetUpdatesLimit = 0 /\
  map (@length IPSetUpdate) plan = [1000] /\
  length (last plan []) = 1000 /\
  nonEmpty (last plan []) = true.
Proof. vm_compute. repeat split; reflexivity. Qed.

(** ** Matching of duplicates *)

Lemma count_occ_remove_first (l1 l2 : list descriptor) (od r : descriptor) :
  count_occ descriptor_eq_dec (l1 ++ od :: l2) r =
  count_occ descriptor_eq_dec (l1 ++ l2) r + (if descriptor_eq_dec od r then 1 else 0).
Proof.
  rewrite !count_occ_app. simpl.
  destruct (descriptor_eq_dec od r); lia.
Qed.

(** C7.  One pass of the loop over [old], in any loop state: when a record
    structurally equal to [od] remains in the working [newD], the pass removes
    exactly one occurrence of it, the first one ([l1] holds none), and leaves
    the running batch and the closed batches as they were, so no operation is
    emitted for [od]; the other records of the working [newD] keep their
    number of occurrences.  For the first record of [old] this reads on the
    function itself. *)
Theorem DiffIPSetDescriptors_first_available_match
    (st : diffState) (od : descriptor) :
  In od (st_newD st) ->
  exists l1 l2 : list descriptor,
    st_newD st = l1 ++ od :: l2 /\
    ~ In od l1 /\
    oldBody ipSetUpdatesLimit st od =
      {| st_newD := l1 ++ l2;
         st_updates := st_updates st;
         st_updatesBatches := st_updatesBatches st |} /\
    count_occ descriptor_eq_dec (st_newD st) od =
      count_occ descriptor_eq_dec (l1 ++ l2) od + 1 /\
    (forall r, r <> od ->
       count_occ descriptor_eq_dec (st_newD st) r =
       count_occ descriptor_eq_dec (l1 ++ l2) r) /\
    (st_updates st = [] -> st_updatesBatches st = [] ->
     forall rest,
       DiffIPSetDescriptors (od :: rest) (st_newD st) =
       DiffIPSetDescriptors rest (l1 ++ l2)).
Proof.
  intros H.
  destruct (sliceContainsMap_In _ _ H) as [idx E].
  destruct (sliceContainsMap_Some _ _ E) as [l1 [l2 [H1 [H2 [H3 H4]]]]].
  exists l1, l2.
  assert (oldBody ipSetUpdatesLimit st od =
      {| st_newD := l1 ++ l2;
         st_updates := st_updates st;
         st_updatesBatches := st_updatesBatches st |}) as B.
  { rewrite (@oldBody_found _ st od idx E), H4. reflexivity. }
  repeat split.
  - exact H1.
  - exact H3.
  - exact B.
  - rewrite H1, count_occ_remove_first.
    destruct (descriptor_eq_dec od od); [reflexivity | congruence].
  - intros r N. rewrite H1, count_occ_remove_first.
    destruct (descriptor_eq_dec od r); [congruence | lia].
  - intros U BS rest. unfold DiffIPSetDescriptors, diffWithLimit.
    simpl fold_left at 2.
    destruct st as [n u bs]. simpl in *. subst u bs.
    rewrite B. reflexivity.
Qed.

(** Duplicates are matched one for one, not deduplicated. *)
Example DiffIPSetDescriptors_duplicate_in_old :
  let a := Descriptor "IPV4" "1.2.3.0/24" in
  DiffIPSetDescriptors [a; a] [a] = [[deleteOf a]].
Proof. vm_compute. reflexivity. Qed.

Example DiffIPSetDescriptors_duplicate_in_new :
  let a := Descriptor "IPV4" "1.2.3.0/24" in
  DiffIPSetDescriptors [a] [a; a] = [[insertOf a]].
Proof. vm_compute. reflexivity. Qed.

(** The example of the specification: one record replaced by another. *)
Example DiffIPSetDescriptors_replace_one :
  let a := Descriptor "IPV4" "1.2.3.0/24" in
  let b := Descriptor "IPV4" "5.6.7.0/24" in
  DiffIPSetDescriptors [a] [b] = [[deleteOf a; insertOf b]].
Proof. vm_compute. reflexivity. Qed.

(** ** Completeness on duplicate-free inputs *)




Lemma NoDup_map_inj {A B : Type} (f : A -> B) (l : list A) :
  (forall x y, f x = f y -> x = y) -> NoDup l -> NoDup (map f l).
Proof.
  intros Hf. induction 1 as [|x l Hx _ IH]; simpl; constructor.
  - intros H. apply in_map_iff in H. destruct H as [y [E Hy]].
    apply Hf in E. subst. contradiction.
  - exact IH.
Qed.


Lemma filter_isDelete_operations (ds ins : list descriptor) :
  filter isDelete (map deleteOf ds ++ map insertOf ins) = map deleteOf ds.
Proof.
  rewrite filter_app.
  replace (filter isDelete (map insertOf ins)) with (@nil IPSetUpdate).
  - rewrite app_nil_r. apply forallb_filter_id. apply forallb_forall.
    intros u Hu. apply in_map_iff in Hu. destruct Hu as [r [<- _]]. reflexivity.
  - induction ins as [|r ins IH]; simpl; [reflexivity | exact IH].
Qed.

Lemma filter_isInsert_operations (ds ins : list descriptor) :
  filter isInsert (map deleteOf ds ++ map insertOf ins) = map insertOf ins.
Proof.
  rewrite filter_app.
  replace (filter isInsert (map deleteOf ds)) with (@nil IPSetUpdate).
  - simpl. apply forallb_filter_id. apply forallb_forall.
    intros u Hu. apply in_map_iff in Hu. destruct Hu as [r [<- _]]. reflexivity.
  - induction ds as [|r ds IH]; simpl; [reflexivity | exact IH].
Qed.


(** ** The capacity is not an input *)



(** ** Applying a plan *)

Section UpdateIPSetFacts.

Variable Remote : Type.
Variable UpdateIPSet : string -> list IPSetUpdate -> Remote -> Remote * option error.

Lemma allSucceed_app (id : string) (p q : list (list IPSetUpdate)) (r : Remote) :
  allSucceed UpdateIPSet id (p ++ q) r <->
  allSucceed UpdateIPSet id p r /\
  allSucceed UpdateIPSet id q (applyAll UpdateIPSet id p r).
Proof.
  revert r. induction p as [|b p IH]; intros r; simpl.
  - tauto.
  - rewrite IH. tauto.
Qed.

(** What the loop over the batches does: either every batch was submitted
    and succeeded, or the batches before the first failing one were submitted
    and succeeded, the failing one was submitted, and nothing after it. *)
Lemma rangeBatches_spec (id : string) (plan : list (list IPSetUpdate))
    (w : World Remote (string * list IPSetUpdate)) :
  match rangeBatches UpdateIPSet id plan w with
  | (w', None) =>
      allSucceed UpdateIPSet id plan (remote w) /\
      remote w' = applyAll UpdateIPSet id plan (remote w) /\
      calls w' = calls w ++ map (pair id) plan
  | (w', Some e) =>
      exists done failed rest cause,
        plan = done ++ failed :: rest /\
        allSucceed UpdateIPSet id done (remote w) /\
        UpdateIPSet id failed (applyAll UpdateIPSet id done (remote w)) =
          (remote w', Some cause) /\
        e = Errorf_s "updating WAF IPSet: %s" [] cause /\
        calls w' = calls w ++ map (pair id) (done ++ [failed])
  end.
Proof.
  revert w. induction plan as [|b plan IH]; intros w.
  - simpl. rewrite app_nil_r. auto.
  - simpl. unfold submit.
    destruct (UpdateIPSet id b (remote w)) as [r1 [cause|]] eqn:E.
    + exists [], b, plan, cause. simpl. repeat split; auto.
    + specialize (IH {| remote := r1; calls := calls w ++ [(id, b)] |}).
      destruct (rangeBatches UpdateIPSet id plan
                  {| remote := r1; calls := calls w ++ [(id, b)] |})
        as [w' [e|]]; simpl in IH.
      * destruct IH as [done [failed [rest [c [H1 [H2 [H3 [H4 H5]]]]]]]].
        exists (b :: done), failed, rest, c. simpl. rewrite ?E. simpl.
        repeat split; auto.
        -- rewrite H1. reflexivity.
        -- rewrite H5, <- app_assoc. reflexivity.
      * destruct IH as [H1 [H2 H3]].
        repeat split; auto.
        rewrite H3, <- app_assoc. reflexivity.
Qed.

End UpdateIPSetFacts.

(** C9.  [updateIPSetDescriptors] submits the batches of
    [DiffIPSetDescriptors] in order, one call per batch.  When it returns no
    error, every batch was submitted and succeeded.  When it returns an error,
    the plan splits into the batches [done] that succeeded, the first failing
    batch [failed] and the batches [rest]: the calls made are [done] then
    [failed], in order, and nothing else (no batch of [rest], no undoing
    call); the error returned is built from the cause of that failure; the
    remote is as the failing call left it after [done] was applied, so when
    the failing call changes nothing it reflects exactly the batches that
    succeeded. *)
Theorem updateIPSetDescriptors_stops_at_first_failure
    (Remote : Type)
    (UpdateIPSet : string -> list IPSetUpdate -> Remote -> Remote * option error)
    (id : string) (oldD newD : list descriptor)
    (w : World Remote (string * list IPSetUpdate)) :
  let plan := DiffIPSetDescriptors oldD newD in
  let res := updateIPSetDescriptors UpdateIPSet id oldD newD w in
  match snd res with
  | None =>
      allSucceed UpdateIPSet id plan (remote w) /\
      remote (fst res) = applyAll UpdateIPSet id plan (remote w) /\
      calls (fst res) = calls w ++ map (pair id) plan
  | Some e =>
      exists done failed rest cause,
        plan = done ++ failed :: rest /\
        allSucceed UpdateIPSet id done (remote w) /\
        snd (UpdateIPSet id failed (applyAll UpdateIPSet id done (remote w))) =
          Some cause /\
        e = Errorf_s "updating WAF IPSet: %s" [] cause /\
        calls (fst res) = calls w ++ map (pair id) done ++ [(id, failed)] /\
        remote (fst res) =
          fst (UpdateIPSet id failed (applyAll UpdateIPSet id done (remote w))) /\
        (fst (UpdateIPSet id failed (applyAll UpdateIPSet id done (remote w))) =
           applyAll UpdateIPSet id done (remote w) ->
         remote (fst res) = applyAll UpdateIPSet id done (remote w))
  end.
Proof.
  intros plan res. subst res. unfold updateIPSetDescriptors. fold plan.
  pose proof (rangeBatches_spec UpdateIPSet id plan w) as H.
  destruct (rangeBatches UpdateIPSet id plan w) as [w' [e|]]; simpl.
  - destruct H as [done [failed [rest [cause [H1 [H2 [H3 [H4 H5]]]]]]]].
    exists done, failed, rest, cause. rewrite H3. simpl.
    repeat split; auto.
    rewrite H5, map_app. reflexivity.
  - exact H.
Qed.

(** ** Deleting a Transfer user *)

(** C10.  When the remote [DeleteUser] call fails with an error whose code is
    [ResourceNotFoundException], [userDelete] returns no error and the wait
    for deletion is skipped: the only call made is the delete.  When it fails
    with any other error, [userDelete] returns that error, wrapped, and again
    makes no further call. *)
Theorem userDelete_not_found_is_success
    (Remote : Type)
    (DeleteUser waitUserDeleted : string -> string -> Remote -> Remote * option error)
    (UserCreateResourceID : string -> string -> string)
    (serverID userName : string) (w : World Remote TransferCall)
    (r' : Remote) (e : error) :
  DeleteUser serverID userName (remote w) = (r', Some e) ->
  let res := userDelete DeleteUser waitUserDeleted UserCreateResourceID
               serverID userName w in
  calls (fst res) = calls w ++ [CallDeleteUser serverID userName] /\
  remote (fst res) = r' /\
  (errCodeEquals e ErrCodeResourceNotFoundException = true -> snd res = None) /\
  (errCodeEquals e ErrCodeResourceNotFoundException = false ->
   snd res = Some (Errorf_w "deleting Transfer User (%s): %w"
                     [UserCreateResourceID serverID userName] e)).
Proof.
  intros H res. subst res. unfold userDelete, submit. rewrite H. simpl.
  destruct (errCodeEquals e ErrCodeResourceNotFoundException); simpl;
    repeat split; auto; discriminate.
Qed.

(** ** Concrete runs *)

Lemma sampleDescriptors_NoDup (n : nat) : NoDup (sampleDescriptors n).
Proof.
  unfold sampleDescriptors. apply NoDup_map_inj; [|apply seq_NoDup].
  intros x y E. inversion E as [E'].
  apply DecimalNat.Unsigned.to_uint_inj.
  pose proof (DecimalString.NilEmpty.usu (Nat.to_uint x)) as Hx.
  pose proof (DecimalString.NilEmpty.usu (Nat.to_uint y)) as Hy.
  rewrite E' in Hx. rewrite Hx in Hy. inversion Hy. reflexivity.
Qed.

Lemma sampleDescriptors_length (n : nat) : length (sampleDescriptors n) = n.
Proof. unfold sampleDescriptors. rewrite length_map, length_seq. reflexivity. Qed.

Lemma sample_1000_total :
  length (concat (DiffIPSetDescriptors [] (sampleDescriptors 1000))) = 1000.
Proof.
  rewrite concat_DiffIPSetDescriptors, operations_nil_old, length_map.
  apply sampleDescriptors_length.
Qed.



(** C3 on [old = [a]], [new = [b]]: the Delete is at position 0, the Insert
    at position 1. *)
Lemma DiffIPSetDescriptors_deletes_before_inserts_witness :
  let a := Descriptor "IPV4" "1.2.3.0/24" in
  let b := Descriptor "IPV4" "5.6.7.0/24" in
  nth_error (concat (DiffIPSetDescriptors [a] [b])) 0 = Some (deleteOf a) /\
  nth_error (concat (DiffIPSetDescriptors [a] [b])) 1 = Some (insertOf b) /\
  0 < 1.
Proof.
  intros a b. split; [reflexivity|]. split; [reflexivity|].
  apply (@DiffIPSetDescriptors_deletes_before_inserts [a] [b] 0 1
           (deleteOf a) (insertOf b)); reflexivity.
Defined.

(** C5 on 2500 distinct records. *)
Lemma DiffIPSetDescriptors_batch_count_witness :
  NoDup (sampleDescriptors 2500) /\
  length (sampleDescriptors 2500) = 2500 /\
  map (@length IPSetUpdate) (DiffIPSetDescriptors [] (sampleDescriptors 2500)) =
    [1000; 1000; 500].
Proof.
  split; [apply sampleDescriptors_NoDup|].
  split; [apply sampleDescriptors_length|].
  apply (proj2 DiffIPSetDescriptors_batch_count).
  - apply sampleDescriptors_NoDup.
  - apply sampleDescriptors_length.
Defined.

(** C6 (as the code has it) on 1000 Inserts: one batch, and it is full. *)
Lemma DiffIPSetDescriptors_exact_multiple_witness :
  0 < length (concat (DiffIPSetDescriptors [] (sampleDescriptors 1000))) /\
  length (concat (DiffIPSetDescriptors [] (sampleDescriptors 1000))) mod 1000 = 0 /\
  length (DiffIPSetDescriptors [] (sampleDescriptors 1000)) =
    length (concat (DiffIPSetDescriptors [] (sampleDescriptors 1000))) / 1000 /\
  length (last (DiffIPSetDescriptors [] (sampleDescriptors 1000)) []) = 1000.
Proof.
  assert (0 < length (concat (DiffIPSetDescriptors [] (sampleDescriptors 1000))))
    as H1 by (rewrite sample_1000_total; apply Nat.lt_0_succ).
  assert (length (concat (DiffIPSetDescriptors [] (sampleDescriptors 1000))) mod 1000 = 0)
    as H2 by (rewrite sample_1000_total; reflexivity).
  split; [exact H1|]. split; [exact H2|].
  destruct (@DiffIPSetDescriptors_exact_multiple [] (sampleDescriptors 1000) H1 H2)
    as [A [_ B]].
  split; [exact A | exact B].
Defined.

(** C7 on a working [newD] of [[b; a; a]] and the record [a]: the first [a]
    goes, the second stays. *)
Lemma DiffIPSetDescriptors_first_available_match_witness :
  let a := Descriptor "IPV4" "1.2.3.0/24" in
  let b := Descriptor "IPV4" "5.6.7.0/24" in
  let st := {| st_newD := [b; a; a]; st_updates := []; st_updatesBatches := [] |} in
  In a (st_newD st) /\
  st_newD (oldBody ipSetUpdatesLimit st a) = [b; a] /\
  exists l1 l2 : list descriptor,
    st_newD st = l1 ++ a :: l2 /\
    oldBody ipSetUpdatesLimit st a =
      {| st_newD := l1 ++ l2; st_updates := []; st_updatesBatches := [] |}.
Proof.
  intros a b st.
  assert (In a (st_newD st)) as H by (right; left; reflexivity).
  split; [exact H|]. split; [reflexivity|].
  destruct (@DiffIPSetDescriptors_first_available_match st a H)
    as [l1 [l2 [H1 [_ [H3 _]]]]].
  exists l1, l2. split; [exact H1 | exact H3].
Defined.

(** C9 on a plan of three batches whose second call fails: two calls are
    made, the first batch is applied, the third is never submitted. *)
Example updateIPSetDescriptors_second_batch_fails :
  let res := updateIPSetDescriptors (sampleUpdateIPSet 1) "ipset-1"
               [] (sampleDescriptors 2500) {| remote := []; calls := [] |} in
  map (@length IPSetUpdate) (DiffIPSetDescriptors [] (sampleDescriptors 2500)) =
    [1000; 1000; 500] /\
  snd res = Some (Errorf_s "updating WAF IPSet: %s" []
                    (AWSError "WAFInternalErrorException" "try again")) /\
  map (fun c => length (snd c)) (calls (fst res)) = [1000; 1000] /\
  map (@length IPSetUpdate) (remote (fst res)) = [1000] /\
  remote (fst res) = firstn 1 (DiffIPSetDescriptors [] (sampleDescriptors 2500)).
Proof. vm_compute. repeat split; reflexivity. Qed.

(** C10 on a service that does not hold the user: the delete is answered with
    [ResourceNotFoundException], [userDelete] returns no error, and the delete
    is the only call. *)
Lemma userDelete_not_found_is_success_witness :
  let w := {| remote := [("s-1", "bob")%string]; calls := [] |} in
  let res := userDelete sampleDeleteUser sampleWaitUserDeleted
               sampleUserCreateResourceID "s-1" "alice" w in
  sampleDeleteUser "s-1" "alice" (remote w) =
    (remote w, Some (AWSError ErrCodeResourceNotFoundException "Unknown user")) /\
  snd res = None /\
  calls (fst res) = [CallDeleteUser "s-1" "alice"].
Proof.
  intros w res.
  assert (sampleDeleteUser "s-1" "alice" (remote w) =
          (remote w, Some (AWSError ErrCodeResourceNotFoundException "Unknown user")))
    as H by reflexivity.
  split; [exact H|].
  destruct (@userDelete_not_found_is_success _ sampleDeleteUser sampleWaitUserDeleted
              sampleUserCreateResourceID "s-1" "alice" w _ _ H)
    as [A [_ [C _]]].
  split; [apply C; reflexivity | exact A].
Defined.

(** Any other delete error comes back wrapped, and nothing is waited for. *)
Example userDelete_other_error :
  let w := {| remote := [("s-1", "alice")%string]; calls := [] |} in
  userDelete deniedDeleteUser sampleWaitUserDeleted
    sampleUserCreateResourceID "s-1" "alice" w =
  ({| remote := [("s-1", "alice")%string]; calls := [CallDeleteUser "s-1" "alice"] |},
   Some (Errorf_w "deleting Transfer User (%s): %w" ["s-1/alice"%string]
           (AWSError "AccessDeniedException" "not authorized"))).
Proof. reflexivity. Qed.

(** A delete that succeeds is followed by the wait. *)
Example userDelete_success_waits :
  let w := {| remote := [("s-1", "alice")%string]; calls := [] |} in
  userDelete sampleDeleteUser sampleWaitUserDeleted
    sampleUserCreateResourceID "s-1" "alice" w =
  ({| remote := [];
      calls := [CallDeleteUser "s-1" "alice"; CallWaitUserDeleted "s-1" "alice"] |},
   None).
Proof. reflexivity. Qed.

(** ** The differ on Go slices: agreement with the value-level embedding *)

Import GoSlice.

Lemma firstn_seq_le (n start k : nat) :
  n <= k -> firstn n (seq start k) = seq start n.
Proof.
  intros H. replace k with (n + (k - n)) by lia.
  rewrite seq_app, firstn_app, length_seq, Nat.sub_diag. simpl.
  rewrite app_nil_r. rewrite firstn_all2; [reflexivity|].
  rewrite length_seq. lia.
Qed.

Lemma elems_removeAtInPlace (mem : memory) (newD : slice) (idx : nat) :
  idx < len newD ->
  elems (fst (removeAtInPlace mem newD idx)) (snd (removeAtInPlace mem newD idx)) =
  removeAt idx (elems mem newD).
Proof.
  intros H. unfold removeAtInPlace, elems, removeAt. simpl.
  rewrite firstn_map, skipn_map, firstn_seq_le, skipn_seq by lia.
  replace (len newD - 1) with (idx + (len newD - 1 - idx)) at 1 by lia.
  rewrite seq_app, map_app. f_equal.
  - apply map_ext_in. intros j Hj. apply in_seq in Hj.
    replace (ptr newD + idx <=? ptr newD + j) with false; [reflexivity|].
    symmetry. apply Nat.leb_gt. lia.
  - replace (0 + (idx + 1)) with (S idx) by lia.
    replace (len newD - (idx + 1)) with (len newD - 1 - idx) by lia.
    rewrite <- seq_shift, map_map. apply map_ext_in. intros j Hj.
    apply in_seq in Hj.
    replace (ptr newD + idx <=? ptr newD + j) with true
      by (symmetry; apply Nat.leb_le; lia).
    replace (ptr newD + j + 1 <? ptr newD + len newD) with true
      by (symmetry; apply Nat.ltb_lt; lia).
    simpl. f_equal. lia.
Qed.

Lemma removeAtInPlace_outside (mem : memory) (newD : slice) (idx p : nat) :
  p < ptr newD \/ ptr newD + len newD <= p ->
  fst (removeAtInPlace mem newD idx) p = mem p.
Proof.
  intros H. unfold removeAtInPlace. simpl.
  destruct (ptr newD + idx <=? p) eqn:A; [|reflexivity].
  destruct (p + 1 <? ptr newD + len newD) eqn:B; [|reflexivity].
  apply Nat.leb_le in A. apply Nat.ltb_lt in B. lia.
Qed.

(** The loop over [oldD] on separate slices follows the value-level loop. *)
Lemma fold_oldBody_separate (limit : nat) (mem0 : memory) (oldD newD0 : slice) :
  separate oldD newD0 ->
  forall (k i : nat) (st : state) (pst : diffState),
    i + k = len oldD ->
    ptr (s_newD st) = ptr newD0 ->
    len (s_newD st) <= len newD0 ->
    (forall j, j < len oldD -> s_mem st (ptr oldD + j) = mem0 (ptr oldD + j)) ->
    elems (s_mem st) (s_newD st) = st_newD pst ->
    s_updates st = st_updates pst ->
    s_updatesBatches st = st_updatesBatches pst ->
    let st' := fold_left (oldBodyInPlace limit oldD) (seq i k) st in
    let pst' := fold_left (oldBody limit)
                  (map (fun j => mem0 (ptr oldD + j)) (seq i k)) pst in
    elems (s_mem st') (s_newD st') = st_newD pst' /\
    s_updates st' = st_updates pst' /\
    s_updatesBatches st' = st_updatesBatches pst'.
Proof.
  intros Sep k. induction k as [|k IH]; intros i st pst Hik Hp Hl Hold He Hu Hb.
  - simpl. auto.
  - simpl seq. simpl map. simpl fold_left.
    assert (s_mem st (ptr oldD + i) = mem0 (ptr oldD + i)) as Hod
      by (apply Hold; lia).
    apply IH; try lia.
    + unfold oldBodyInPlace. rewrite He.
      destruct (sliceContainsMap (st_newD pst) (s_mem st (ptr oldD + i))); simpl.
      * exact Hp.
      * destruct (length (s_updates st) =? limit); simpl; exact Hp.
    + unfold oldBodyInPlace. rewrite He.
      destruct (sliceContainsMap (st_newD pst) (s_mem st (ptr oldD + i))); simpl.
      * lia.
      * destruct (length (s_updates st) =? limit); simpl; exact Hl.
    + intros j Hj. unfold oldBodyInPlace. rewrite He.
      destruct (sliceContainsMap (st_newD pst) (s_mem st (ptr oldD + i))) as [idx|].
      * change (fst (removeAtInPlace (s_mem st) (s_newD st) idx) (ptr oldD + j) =
                mem0 (ptr oldD + j)).
        rewrite removeAtInPlace_outside; [apply Hold; exact Hj|].
        unfold separate in Sep. lia.
      * destruct (length (s_updates st) =? limit); simpl; apply Hold; exact Hj.
    + unfold oldBodyInPlace, oldBody. rewrite He, <- Hod.
      destruct (sliceContainsMap (st_newD pst) (s_mem st (ptr oldD + i)))
        as [idx|] eqn:E.
      * change (elems (fst (removeAtInPlace (s_mem st) (s_newD st) idx))
                      (snd (removeAtInPlace (s_mem st) (s_newD st) idx)) =
                removeAt idx (st_newD pst)).
        rewrite <- He. apply elems_removeAtInPlace.
        destruct (sliceContainsMap_Some _ _ E) as [l1 [l2 [H1 [H2 _]]]].
        assert (length (elems (s_mem st) (s_newD st)) = len (s_newD st)) as L
          by (unfold elems; rewrite length_map, length_seq; reflexivity).
        rewrite He, H1, length_app in L. simpl in L. lia.
      * rewrite <- Hu. destruct (length (s_updates st) =? limit); simpl; exact He.
    + unfold oldBodyInPlace, oldBody. rewrite He, <- Hod, <- Hu.
      destruct (sliceContainsMap (st_newD pst) (s_mem st (ptr oldD + i))); simpl.
      * reflexivity.
      * destruct (length (s_updates st) =? limit); simpl; reflexivity.
    + unfold oldBodyInPlace, oldBody. rewrite He, <- Hod, <- Hu, <- Hb.
      destruct (sliceContainsMap (st_newD pst) (s_mem st (ptr oldD + i))); simpl.
      * reflexivity.
      * destruct (length (s_updates st) =? limit); simpl; reflexivity.
Qed.

(** On two slices that do not overlap, the source computes the value-level
    [DiffIPSetDescriptors] of their elements. *)
Lemma DiffIPSetDescriptorsInPlace_separate (mem : memory) (oldD newD : slice) :
  separate oldD newD ->
  snd (DiffIPSetDescriptorsInPlace mem oldD newD) =
  DiffIPSetDescriptors (elems mem oldD) (elems mem newD).
Proof.
  intros Sep. unfold DiffIPSetDescriptorsInPlace, DiffIPSetDescriptors, diffWithLimit.
  pose proof (@fold_oldBody_separate ipSetUpdatesLimit mem oldD newD Sep
                (len oldD) 0
                {| s_mem := mem; s_newD := newD;
                   s_updates := []; s_updatesBatches := [] |}
                {| st_newD := elems mem newD;
                   st_updates := []; st_updatesBatches := [] |}
                eq_refl eq_refl (le_n _) (fun j _ => eq_refl) eq_refl eq_refl eq_refl)
    as H.
  cbv zeta in H. destruct H as [H1 [H2 H3]].
  fold (elems mem oldD) in H1, H2, H3.
  rewrite H1, H2, H3.
  match goal with
  | |- snd (let (_, _) := ?X in _) = _ => destruct X as [u bs]
  end.
  reflexivity.
Qed.

(** One and the same slice passed for both arguments is outside that: the
    removals shift the elements that the loop over [oldD] is still to read.
    On three distinct records the third one is read twice and the second one
    never. *)
Example DiffIPSetDescriptorsInPlace_same_slice :
  let a := Descriptor "IPV4" "1.2.3.0/24" in
  let b := Descriptor "IPV4" "5.6.7.0/24" in
  let c := Descriptor "IPV4" "9.9.9.0/24" in
  let S := {| ptr := 0; len := 3 |} in
  snd (DiffIPSetDescriptorsInPlace (ofList [a; b; c]) S S) = [[deleteOf c; insertOf b]].
Proof. vm_compute. reflexivity. Qed.

(** In particular the no-op diff: two separate slices with the same elements
    give the single empty batch. *)
Corollary DiffIPSetDescriptorsInPlace_same_elems
    (mem : memory) (oldD newD : slice) :
  separate oldD newD ->
  elems mem oldD = elems mem newD ->
  snd (DiffIPSetDescriptorsInPlace mem oldD newD) = [[]].
Proof.
  intros Sep E. rewrite DiffIPSetDescriptorsInPlace_separate by exact Sep.
  rewrite E. apply diffWithLimit_same.
Qed.

(** On any two slices, overlapping or not, the plan is still a sequence of
    Deletes followed by Inserts cut into batches by [push]: the batch size
    bound, the ordering and the batch count do not depend on how the
    arguments are laid out in memory. *)
Lemma oldBodyInPlace_batches (limit : nat) (oldD : slice) (st : state) (i : nat) :
  let st' := oldBodyInPlace limit oldD st i in
  (s_updates st', s_updatesBatches st') = (s_updates st, s_updatesBatches st) \/
  (s_updates st', s_updatesBatches st') =
    push limit (s_updates st, s_updatesBatches st)
         (deleteOf (s_mem st (ptr oldD + i))).
Proof.
  unfold oldBodyInPlace, push. simpl fst. simpl snd.
  destruct (sliceContainsMap (elems (s_mem st) (s_newD st))
              (s_mem st (ptr oldD + i))).
  - left. reflexivity.
  - right. destruct (length (s_updates st) =? limit); reflexivity.
Qed.

Lemma fold_oldBodyInPlace_pushes (limit : nat) (oldD : slice) :
  forall (k i : nat) (st : state),
  exists ds : list descriptor,
    (s_updates (fold_left (oldBodyInPlace limit oldD) (seq i k) st),
     s_updatesBatches (fold_left (oldBodyInPlace limit oldD) (seq i k) st)) =
    fold_left (push limit) (map deleteOf ds) (s_updates st, s_updatesBatches st).
Proof.
  induction k as [|k IH]; intros i st.
  - exists []. reflexivity.
  - simpl seq. simpl fold_left.
    destruct (IH (S i) (oldBodyInPlace limit oldD st i)) as [ds H].
    rewrite H.
    destruct (oldBodyInPlace_batches limit oldD st i) as [E|E]; rewrite E.
    + exists ds. reflexivity.
    + exists (s_mem st (ptr oldD + i) :: ds). reflexivity.
Qed.

Lemma DiffIPSetDescriptorsInPlace_batches (mem : memory) (oldD newD : slice) :
  exists ds ins : list descriptor,
    snd (DiffIPSetDescriptorsInPlace mem oldD newD) =
    batchesOf ipSetUpdatesLimit (map deleteOf ds ++ map insertOf ins).
Proof.
  unfold DiffIPSetDescriptorsInPlace, batchesOf.
  set (st0 := {| s_mem := mem; s_newD := newD;
                 s_updates := []; s_updatesBatches := [] |}).
  destruct (fold_oldBodyInPlace_pushes ipSetUpdatesLimit oldD (len oldD) 0 st0)
    as [ds H].
  set (st1 := fold_left (oldBodyInPlace ipSetUpdatesLimit oldD) (seq 0 (len oldD)) st0)
    in *.
  exists ds, (elems (s_mem st1) (s_newD st1)).
  rewrite fold_newBody, H, fold_left_app. simpl s_updates. simpl s_updatesBatches.
  match goal with
  | |- snd (let (_, _) := ?X in _) = _ => destruct X as [u bs]
  end.
  reflexivity.
Qed.

Corollary DiffIPSetDescriptorsInPlace_shape (mem : memory) (oldD newD : slice) :
  exists (ds ins : list descriptor) (init : BatchPlan) (last : Batch),
    snd (DiffIPSetDescriptorsInPlace mem oldD newD) = init ++ [last] /\
    Forall (fun b => length b = ipSetUpdatesLimit) init /\
    length last <= ipSetUpdatesLimit /\
    (map deleteOf ds ++ map insertOf ins <> [] -> last <> []) /\
    concat (snd (DiffIPSetDescriptorsInPlace mem oldD newD)) =
      map deleteOf ds ++ map insertOf ins.
Proof.
  destruct (DiffIPSetDescriptorsInPlace_batches mem oldD newD) as [ds [ins E]].
  destruct (@batchesOf_shape ipSetUpdatesLimit (map deleteOf ds ++ map insertOf ins)
              ipSetUpdatesLimit_pos) as [init [last [S [F [L [_ N]]]]]].
  exists ds, ins, init, last. rewrite E.
  repeat split; auto. apply concat_batchesOf.
Qed.

(** * Further properties of the embedded code *)

(** ** The differ on lists with duplicates *)

Lemma IPSetUpdate_eq_dec (u v : IPSetUpdate) : {u = v} + {u <> v}.
Proof.
  decide equality.
  - decide equality; apply string_dec.
  - decide equality.
Defined.

Lemma count_occ_map_deleteOf (l : list descriptor) (r : descriptor) :
  count_occ IPSetUpdate_eq_dec (map deleteOf l) (deleteOf r) =
  count_occ descriptor_eq_dec l r.
Proof.
  induction l as [|x l IH]; [reflexivity|]. cbn [map count_occ].
  destruct (IPSetUpdate_eq_dec (deleteOf x) (deleteOf r)) as [E|E];
    destruct (descriptor_eq_dec x r) as [F|F]; try (rewrite IH; reflexivity).
  - apply deleteOf_inj in E. congruence.
  - subst. congruence.
Qed.

Lemma count_occ_map_insertOf (l : list descriptor) (r : descriptor) :
  count_occ IPSetUpdate_eq_dec (map insertOf l) (insertOf r) =
  count_occ descriptor_eq_dec l r.
Proof.
  induction l as [|x l IH]; [reflexivity|]. cbn [map count_occ].
  destruct (IPSetUpdate_eq_dec (insertOf x) (insertOf r)) as [E|E];
    destruct (descriptor_eq_dec x r) as [F|F]; try (rewrite IH; reflexivity).
  - apply insertOf_inj in E. congruence.
  - subst. congruence.
Qed.

Lemma count_occ_deleteOf_in_inserts (l : list descriptor) (r : descriptor) :
  count_occ IPSetUpdate_eq_dec (map insertOf l) (deleteOf r) = 0.
Proof.
  apply count_occ_not_In. intros H. apply in_map_iff in H.
  destruct H as [x [E _]]. symmetry in E. apply deleteOf_insertOf in E. exact E.
Qed.

Lemma count_occ_insertOf_in_deletes (l : list descriptor) (r : descriptor) :
  count_occ IPSetUpdate_eq_dec (map deleteOf l) (insertOf r) = 0.
Proof.
  apply count_occ_not_In. intros H. apply in_map_iff in H.
  destruct H as [x [E _]]. apply deleteOf_insertOf in E. exact E.
Qed.

(** What is left of [newD] holds each record as many times as [newD] has it
    more often than [oldD]. *)
Lemma count_occ_leftoverNew (oldD newD : list descriptor) (r : descriptor) :
  count_occ descriptor_eq_dec (leftoverNew oldD newD) r =
  count_occ descriptor_eq_dec newD r - count_occ descriptor_eq_dec oldD r.
Proof.
  revert newD. induction oldD as [|od rest IH]; intros newD.
  - simpl. lia.
  - cbn [leftoverNew]. destruct (sliceContainsMap newD od) as [idx|] eqn:E.
    + destruct (sliceContainsMap_Some _ _ E) as [l1 [l2 [H1 [_ [_ H4]]]]].
      rewrite H4, IH, H1, count_occ_remove_first. simpl.
      destruct (descriptor_eq_dec od r); lia.
    + apply sliceContainsMap_None in E. rewrite IH. simpl.
      destruct (descriptor_eq_dec od r) as [F|F]; [|lia].
      subst. apply (count_occ_not_In descriptor_eq_dec) in E. lia.
Qed.

(** The unmatched records of [oldD] hold each record as many times as
    [oldD] has it more often than [newD]. *)
Lemma count_occ_unmatchedOld (oldD newD : list descriptor) (r : descriptor) :
  count_occ descriptor_eq_dec (unmatchedOld oldD newD) r =
  count_occ descriptor_eq_dec oldD r - count_occ descriptor_eq_dec newD r.
Proof.
  revert newD. induction oldD as [|od rest IH]; intros newD.
  - reflexivity.
  - cbn [unmatchedOld]. destruct (sliceContainsMap newD od) as [idx|] eqn:E.
    + destruct (sliceContainsMap_Some _ _ E) as [l1 [l2 [H1 [_ [_ H4]]]]].
      rewrite H4, IH, H1, count_occ_remove_first. simpl.
      destruct (descriptor_eq_dec od r); lia.
    + apply sliceContainsMap_None in E. simpl. rewrite IH.
      destruct (descriptor_eq_dec od r) as [F|F]; [|lia].
      subst. apply (count_occ_not_In descriptor_eq_dec) in E. lia.
Qed.


(** X2.  A plan that deletes a record does not insert it. *)
Theorem DiffIPSetDescriptors_no_delete_and_insert
    (oldD newD : list descriptor) (r : descriptor) :
  In (deleteOf r) (concat (DiffIPSetDescriptors oldD newD)) ->
  ~ In (insertOf r) (concat (DiffIPSetDescriptors oldD newD)).
Proof.
  intros D I.
  apply (count_occ_In IPSetUpdate_eq_dec) in D.
  apply (count_occ_In IPSetUpdate_eq_dec) in I.
  rewrite concat_DiffIPSetDescriptors in D, I. unfold operations in D, I.
  rewrite !count_occ_app in D, I.
  rewrite count_occ_map_deleteOf, count_occ_deleteOf_in_inserts in D.
  rewrite count_occ_insertOf_in_deletes, count_occ_map_insertOf in I.
  rewrite count_occ_unmatchedOld in D. rewrite count_occ_leftoverNew in I. lia.
Qed.

(** X2 at a concrete input. *)
Lemma DiffIPSetDescriptors_no_delete_and_insert_witness :
  let a := Descriptor "IPV4" "1.2.3.0/24" in
  let b := Descriptor "IPV4" "5.6.7.0/24" in
  In (deleteOf a) (concat (DiffIPSetDescriptors [a; a; b] [a; b; b])) /\
  ~ In (insertOf a) (concat (DiffIPSetDescriptors [a; a; b] [a; b; b])).
Proof.
  intros a b.
  assert (In (deleteOf a) (concat (DiffIPSetDescriptors [a; a; b] [a; b; b]))) as H
    by (left; reflexivity).
  split; [exact H|].
  exact (@DiffIPSetDescriptors_no_delete_and_insert [a; a; b] [a; b; b] a H).
Defined.

Lemma length_unmatched_leftover (oldD newD : list descriptor) :
  length (unmatchedOld oldD newD) + length newD =
  length (leftoverNew oldD newD) + length oldD.
Proof.
  revert newD. induction oldD as [|od rest IH]; intros newD.
  - simpl. lia.
  - cbn [unmatchedOld leftoverNew].
    destruct (sliceContainsMap newD od) as [idx|] eqn:E.
    + destruct (sliceContainsMap_Some _ _ E) as [l1 [l2 [H1 [_ [_ H4]]]]].
      specialize (IH (removeAt idx newD)). rewrite H4 in *.
      rewrite H1. rewrite length_app in *. simpl. lia.
    + specialize (IH newD). simpl. lia.
Qed.

(** X3.  The sizes add up: the number of Deletes plus the size of [new] is
    the number of Inserts plus the size of [old]. *)
Theorem DiffIPSetDescriptors_sizes_add_up (oldD newD : list descriptor) :
  let ops := concat (DiffIPSetDescriptors oldD newD) in
  length (filter isDelete ops) + length newD =
  length (filter isInsert ops) + length oldD.
Proof.
  intros ops. subst ops. rewrite concat_DiffIPSetDescriptors. unfold operations.
  rewrite filter_isDelete_operations, filter_isInsert_operations, !length_map.
  apply length_unmatched_leftover.
Qed.

Lemma unmatchedOld_nil_new (oldD : list descriptor) : unmatchedOld oldD [] = oldD.
Proof. induction oldD as [|od rest IH]; simpl; [reflexivity | rewrite IH; reflexivity]. Qed.

Lemma leftoverNew_nil_new (oldD : list descriptor) : leftoverNew oldD [] = [].
Proof. induction oldD as [|od rest IH]; simpl; [reflexivity | exact IH]. Qed.

(** X4.  Against an empty [new] every record of [old] is deleted, in the
    order of [old] and as often as it occurs; against an empty [old] every
    record of [new] is inserted, in the order of [new]. *)
Theorem DiffIPSetDescriptors_against_empty (l : list descriptor) :
  concat (DiffIPSetDescriptors l []) = map deleteOf l /\
  concat (DiffIPSetDescriptors [] l) = map insertOf l.
Proof.
  rewrite !concat_DiffIPSetDescriptors. unfold operations.
  rewrite unmatchedOld_nil_new, leftoverNew_nil_new, app_nil_r.
  split; reflexivity.
Qed.

Lemma count_occ_all_zero_nil (l : list descriptor) :
  (forall r, count_occ descriptor_eq_dec l r = 0) -> l = [].
Proof.
  intros H. apply (count_occ_inv_nil descriptor_eq_dec). exact H.
Qed.

(** Lists that hold the same records the same number of times give the
    single empty batch. *)
Lemma DiffIPSetDescriptors_of_permutation (oldD newD : list descriptor) :
  Permutation oldD newD -> DiffIPSetDescriptors oldD newD = [[]].
Proof.
  rewrite (Permutation_count_occ descriptor_eq_dec).
  intros H. unfold DiffIPSetDescriptors. rewrite diffWithLimit_operations.
  unfold operations.
  rewrite (count_occ_all_zero_nil (unmatchedOld oldD newD)),
          (count_occ_all_zero_nil (leftoverNew oldD newD)).
  - reflexivity.
  - intros r. rewrite count_occ_leftoverNew, (H r). lia.
  - intros r. rewrite count_occ_unmatchedOld, (H r). lia.
Qed.




(** X7.  Every batch of a plan holds between 1 and 1000 operations, except
    that a plan without operations is the single empty batch. *)
Theorem DiffIPSetDescriptors_batches_nonempty (oldD newD : list descriptor) :
  DiffIPSetDescriptors oldD newD = [[]] \/
  Forall (fun b => 1 <= length b <= 1000) (DiffIPSetDescriptors oldD newD).
Proof.
  destruct (@diffWithLimit_shape ipSetUpdatesLimit oldD newD ipSetUpdatesLimit_pos)
    as [init [last [E [F [L [Z N]]]]]].
  fold (DiffIPSetDescriptors oldD newD) in E. rewrite E.
  destruct last as [|x last].
  - left. rewrite (Z eq_refl). reflexivity.
  - right. apply Forall_app. split.
    + apply Forall_impl with (2 := F). intros b Hb. rewrite Hb.
      unfold ipSetUpdatesLimit. lia.
    + constructor; [|constructor]. unfold ipSetUpdatesLimit in L. simpl in *. lia.
Qed.

Lemma length_leftoverNew_le (oldD newD : list descriptor) :
  length (leftoverNew oldD newD) <= length newD.
Proof.
  revert newD. induction oldD as [|od rest IH]; intros newD; [simpl; lia|].
  cbn [leftoverNew]. destruct (sliceContainsMap newD od) as [idx|] eqn:E.
  - destruct (sliceContainsMap_Some _ _ E) as [l1 [l2 [H1 [_ [_ H4]]]]].
    specialize (IH (removeAt idx newD)). rewrite H4 in *. rewrite H1.
    rewrite length_app in *. simpl. lia.
  - apply IH.
Qed.

Lemma ceilDiv_le_mono (a b n : nat) : a <= b -> ceilDiv a n <= ceilDiv b n.
Proof. intros H. unfold ceilDiv. apply Nat.Div0.div_le_mono. lia. Qed.

(** X8.  The number of batches, hence of [UpdateIPSet] requests, is the
    number of operations divided by 1000 and rounded up, and 1 for no
    operation; the operations are at most as many as the records of [old]
    and [new] together. *)
Theorem DiffIPSetDescriptors_number_of_batches (oldD newD : list descriptor) :
  let plan := DiffIPSetDescriptors oldD newD in
  let total := length (concat plan) in
  length plan = Nat.max 1 (ceilDiv total 1000) /\
  total <= length oldD + length newD /\
  length plan <= Nat.max 1 (ceilDiv (length oldD + length newD) 1000).
Proof.
  intros plan total. subst plan total.
  assert (length (concat (DiffIPSetDescriptors oldD newD)) <= length oldD + length newD)
    as T.
  { rewrite concat_DiffIPSetDescriptors. unfold operations.
    rewrite length_app, !length_map.
    pose proof (length_unmatched_leftover oldD newD).
    pose proof (length_leftoverNew_le oldD newD). lia. }
  assert (length (DiffIPSetDescriptors oldD newD) =
          Nat.max 1 (ceilDiv (length (concat (DiffIPSetDescriptors oldD newD))) 1000))
    as L.
  { destruct (@diffWithLimit_shape ipSetUpdatesLimit oldD newD ipSetUpdatesLimit_pos)
      as [init [last [E [F [B [Z N]]]]]].
    fold (DiffIPSetDescriptors oldD newD) in E. rewrite E.
    rewrite concat_snoc, !length_app, (length_concat_full F).
    destruct last as [|x last].
    - rewrite (Z eq_refl). cbn [length app]. rewrite Nat.mul_0_r. reflexivity.
    - change 1000 with ipSetUpdatesLimit.
      rewrite ceilDiv_full_plus by (simpl in *; lia). simpl length. lia. }
  split; [exact L|]. split; [exact T|].
  rewrite L. apply Nat.max_le_compat_l. apply ceilDiv_le_mono. exact T.
Qed.

(** ** Applying a plan: further facts *)

(** X9.  When [old] and [new] hold the same records, in whatever order,
    [updateIPSetDescriptors] still submits one request, with an empty list of
    updates, and reports its failure. *)
Theorem updateIPSetDescriptors_noop_still_calls
    (Remote : Type)
    (UpdateIPSet : string -> list IPSetUpdate -> Remote -> Remote * option error)
    (id : string) (oldD newD : list descriptor)
    (w : World Remote (string * list IPSetUpdate)) :
  Permutation oldD newD ->
  let res := updateIPSetDescriptors UpdateIPSet id oldD newD w in
  calls (fst res) = calls w ++ [(id, [])] /\
  remote (fst res) = fst (UpdateIPSet id [] (remote w)) /\
  snd res =
    match snd (UpdateIPSet id [] (remote w)) with
    | None => None
    | Some e => Some (Errorf_s "updating WAF IPSet: %s" [] e)
    end.
Proof.
  intros P res. subst res. unfold updateIPSetDescriptors.
  rewrite (DiffIPSetDescriptors_of_permutation P). simpl. unfold submit.
  destruct (UpdateIPSet id [] (remote w)) as [r1 [e|]]; simpl; auto.
Qed.

(** X9 at a concrete input. *)
Lemma updateIPSetDescriptors_noop_still_calls_witness :
  let a := Descriptor "IPV4" "1.2.3.0/24" in
  let b := Descriptor "IPV4" "5.6.7.0/24" in
  let res := updateIPSetDescriptors (sampleUpdateIPSet 5) "ipset-1" [a; b] [b; a]
               {| remote := []; calls := [] |} in
  Permutation [a; b] [b; a] /\
  calls (fst res) = [("ipset-1"%string, [])] /\
  remote (fst res) = [[]].
Proof.
  intros a b res.
  assert (Permutation [a; b] [b; a]) as P by apply perm_swap.
  split; [exact P|].
  destruct (@updateIPSetDescriptors_noop_still_calls _ (sampleUpdateIPSet 5)
              "ipset-1" [a; b] [b; a] {| remote := []; calls := [] |} P)
    as [A [B _]].
  split; [exact A | exact B].
Defined.

(** X10.  [updateIPSetDescriptors] returns no error exactly when every
    batch of the plan, submitted in order, succeeds. *)
Theorem updateIPSetDescriptors_nil_iff_all_succeed
    (Remote : Type)
    (UpdateIPSet : string -> list IPSetUpdate -> Remote -> Remote * option error)
    (id : string) (oldD newD : list descriptor)
    (w : World Remote (string * list IPSetUpdate)) :
  snd (updateIPSetDescriptors UpdateIPSet id oldD newD w) = None <->
  allSucceed UpdateIPSet id (DiffIPSetDescriptors oldD newD) (remote w).
Proof.
  unfold updateIPSetDescriptors.
  pose proof (rangeBatches_spec UpdateIPSet id (DiffIPSetDescriptors oldD newD) w) as H.
  destruct (rangeBatches UpdateIPSet id (DiffIPSetDescriptors oldD newD) w)
    as [w' [e|]]; simpl.
  - destruct H as [done [failed [rest [cause [H1 [H2 [H3 _]]]]]]].
    split; [discriminate|]. intros A. rewrite H1 in A.
    apply allSucceed_app in A. destruct A as [_ A]. simpl in A.
    destruct A as [A _]. rewrite H3 in A. discriminate.
  - destruct H as [H _]. split; auto.
Qed.

(** ** The IP set resource *)

(** A plan with at least one operation has no empty batch. *)
Lemma plan_batches_bounded (oldD newD : list descriptor) :
  concat (DiffIPSetDescriptors oldD newD) <> [] ->
  Forall (fun b => 1 <= length b <= 1000) (DiffIPSetDescriptors oldD newD).
Proof.
  intros NE.
  destruct (@diffWithLimit_shape ipSetUpdatesLimit oldD newD ipSetUpdatesLimit_pos)
    as [init [last [E [F [L [Z N]]]]]].
  fold (DiffIPSetDescriptors oldD newD) in E. rewrite E in *.
  destruct last as [|x last].
  - rewrite (Z eq_refl) in NE. simpl in NE. congruence.
  - apply Forall_app. split.
    + apply Forall_impl with (2 := F). intros b Hb. rewrite Hb.
      unfold ipSetUpdatesLimit. lia.
    + constructor; [|constructor]. unfold ipSetUpdatesLimit in L. simpl in *. lia.
Qed.

Lemma in_batch_in_concat {A : Type} (ls : list (list A)) (b : list A) (x : A) :
  In b ls -> In x b -> In x (concat ls).
Proof. intros Hb Hx. apply in_concat. exists b. split; assumption. Qed.

Lemma updateRequests_app (a b : list WafCall) :
  updateRequests (a ++ b) = updateRequests a ++ updateRequests b.
Proof. unfold updateRequests. apply flat_map_app. Qed.

Lemma updateRequests_map (id : string) (plan : list (list IPSetUpdate)) :
  updateRequests (map (fun c => CallUpdateIPSet (fst c) (snd c)) (map (pair id) plan)) =
  plan.
Proof.
  induction plan as [|b plan IH]; [reflexivity|].
  unfold updateRequests in *. cbn [map flat_map fst snd app]. rewrite IH. reflexivity.
Qed.

Lemma forallb_false_exists {A : Type} (f : A -> bool) (l : list A) :
  forallb f l = false -> exists x, In x l /\ f x = false.
Proof.
  induction l as [|a l IH]; simpl; [discriminate|].
  destruct (f a) eqn:E; simpl.
  - intros H. destruct (IH H) as [x [Hx Fx]]. exists x. auto.
  - intros _. exists a. auto.
Qed.

(** Sets that differ give a plan with at least one operation. *)
Lemma sameSet_false_operations (oldD newD : list descriptor) :
  sameSet oldD newD = false -> concat (DiffIPSetDescriptors oldD newD) <> [].
Proof.
  unfold sameSet. rewrite andb_false_iff, concat_DiffIPSetDescriptors.
  unfold operations. intros [H|H] E;
    apply forallb_false_exists in H; destruct H as [r [Hr M]];
    apply memb_not_In in M;
    apply app_eq_nil in E; destruct E as [E1 E2];
    apply map_eq_nil in E1; apply map_eq_nil in E2.
  - pose proof (count_occ_unmatchedOld oldD newD r) as U. rewrite E1 in U.
    apply (count_occ_In descriptor_eq_dec) in Hr.
    apply (count_occ_not_In descriptor_eq_dec) in M. simpl in U. lia.
  - pose proof (count_occ_leftoverNew oldD newD r) as U. rewrite E2 in U.
    apply (count_occ_In descriptor_eq_dec) in Hr.
    apply (count_occ_not_In descriptor_eq_dec) in M. simpl in U. lia.
Qed.

Section IPSetResourceFacts.

Variable Remote : Type.
Variable clientPartition clientAccountID : string.
Variable ARN_String : ARN -> string.
Variable CreateIPSet : string -> Remote -> Remote * (string + error).
Variable GetIPSet : string -> Remote -> Remote * (IPSet + error).
Variable UpdateIPSet : string -> list IPSetUpdate -> Remote -> Remote * option error.
Variable DeleteIPSet : string -> Remote -> Remote * option error.

(** What [updateIPSetDescriptors] leaves on the connection of the resource:
    the requests submitted are a prefix of the plan, the whole plan exactly
    when no error is returned. *)
Lemma updateIPSetDescriptorsOn_spec (id : string) (oldD newD : list descriptor)
    (w : World Remote WafCall) :
  let plan := DiffIPSetDescriptors oldD newD in
  let res := updateIPSetDescriptorsOn UpdateIPSet id oldD newD w in
  exists sent : list (list IPSetUpdate),
    calls (fst res) =
      calls w ++ map (fun c => CallUpdateIPSet (fst c) (snd c)) (map (pair id) sent) /\
    match snd res with
    | None => sent = plan /\ allSucceed UpdateIPSet id plan (remote w)
    | Some e =>
        exists done failed rest cause,
          plan = done ++ failed :: rest /\ sent = done ++ [failed] /\
          allSucceed UpdateIPSet id done (remote w) /\
          e = Errorf_s "updating WAF IPSet: %s" [] cause
    end.
Proof.
  intros plan res. subst res. unfold updateIPSetDescriptorsOn, updateIPSetDescriptors.
  fold plan.
  pose proof (rangeBatches_spec UpdateIPSet id plan {| remote := remote w; calls := [] |})
    as H.
  destruct (rangeBatches UpdateIPSet id plan {| remote := remote w; calls := [] |})
    as [w' [e|]]; simpl in *.
  - destruct H as [done [failed [rest [cause [H1 [H2 [H3 [H4 H5]]]]]]]].
    exists (done ++ [failed]). rewrite H5. split; [reflexivity|].
    exists done, failed, rest, cause. auto.
  - destruct H as [H1 [H2 H3]]. exists plan. rewrite H3. auto.
Qed.

Lemma updateRequests_sent (id : string) (sent : list (list IPSetUpdate)) :
  updateRequests (map (fun c => CallUpdateIPSet (fst c) (snd c)) (map (pair id) sent)) =
  sent.
Proof. apply updateRequests_map. Qed.

Lemma sent_calls_are_updates (id : string) (sent : list (list IPSetUpdate)) (c : WafCall) :
  In c (map (fun c => CallUpdateIPSet (fst c) (snd c)) (map (pair id) sent)) ->
  exists b, c = CallUpdateIPSet id b /\ In b sent.
Proof.
  rewrite map_map. intros H. apply in_map_iff in H.
  destruct H as [b [E Hb]]. exists b. simpl in E. auto.
Qed.


Lemma resourceIPSetRead_calls (d : IPSetResourceData) (w : World Remote WafCall) :
  calls (fst (fst (resourceIPSetRead clientPartition clientAccountID ARN_String
                     GetIPSet d w))) =
  calls w ++ [CallGetIPSet (rd_id d)].
Proof.
  unfold resourceIPSetRead, invoke.
  destruct (GetIPSet (rd_id d) (remote w)) as [r1 [ipSet|err]]; [reflexivity|].
  destruct (ErrCodeEquals (Some err) ErrCodeNonexistentItemException); reflexivity.
Qed.

(** X12.  [resourceIPSetCreate] creates the set, then inserts, then reads.
    When [CreateIPSet] fails nothing else is called, the data is untouched
    and the failure is reported.  Otherwise every later call is on the ID
    that [CreateIPSet] answered; every [UpdateIPSet] request holds between 1
    and 1000 operations, all of them Inserts; the read is made only once
    Inserts for all descriptors, in their order, have been submitted and
    have succeeded; and when it is not made, the resource keeps the new ID
    and a diagnostic is returned. *)
Theorem resourceIPSetCreate_inserts_then_reads
    (d : IPSetResourceData) (w : World Remote WafCall) :
  let res := resourceIPSetCreate clientPartition clientAccountID ARN_String
               CreateIPSet GetIPSet UpdateIPSet d w in
  exists newCalls : list WafCall,
    calls (fst (fst res)) = calls w ++ CallCreateIPSet (rd_name d) :: newCalls /\
    Forall (fun b => 1 <= length b <= 1000 /\
                     Forall (fun u => Action u = ChangeActionInsert) b)
           (updateRequests newCalls) /\
    (forall err, snd (CreateIPSet (rd_name d) (remote w)) = inr err ->
       newCalls = [] /\ snd (fst res) = d /\
       snd res = [Errorf_s "creating WAF IPSet (%s): %s" [rd_name d] err]) /\
    (forall id, snd (CreateIPSet (rd_name d) (remote w)) = inl id ->
       (forall c, In c newCalls ->
          c = CallGetIPSet id \/ exists b, c = CallUpdateIPSet id b) /\
       (In (CallGetIPSet id) newCalls ->
          concat (updateRequests newCalls) = map insertOf (rd_ip_set_descriptors d) /\
          allSucceed UpdateIPSet id (updateRequests newCalls)
            (fst (CreateIPSet (rd_name d) (remote w)))) /\
       (~ In (CallGetIPSet id) newCalls ->
          rd_id (snd (fst res)) = id /\ snd res <> [])).
Proof.
  intros res. subst res. unfold resourceIPSetCreate, invoke.
  destruct (CreateIPSet (rd_name d) (remote w)) as [r1 [id|err]] eqn:EC; simpl snd.
  - set (w1 := {| remote := r1; calls := calls w ++ [CallCreateIPSet (rd_name d)] |}).
    set (d1 := ipSetSetId d id).
    change (rd_ip_set_descriptors d1) with (rd_ip_set_descriptors d).
    change (rd_id d1) with id.
    destruct (0 <? length (rd_ip_set_descriptors d)) eqn:G.
    + apply Nat.ltb_lt in G.
      set (plan := DiffIPSetDescriptors [] (rd_ip_set_descriptors d)).
      assert (concat plan = map insertOf (rd_ip_set_descriptors d)) as C.
      { unfold plan. rewrite concat_DiffIPSetDescriptors. reflexivity. }
      assert (Forall (fun b => 1 <= length b <= 1000 /\
                               Forall (fun u => Action u = ChangeActionInsert) b) plan)
        as B.
      { apply Forall_forall. intros b Hb. split.
        - assert (Forall (fun b => 1 <= length b <= 1000) plan) as P.
          { apply plan_batches_bounded. fold plan. rewrite C.
            destruct (rd_ip_set_descriptors d); simpl in *; [lia | discriminate]. }
          rewrite Forall_forall in P. apply P. exact Hb.
        - apply Forall_forall. intros u Hu.
          pose proof (in_batch_in_concat plan b u Hb Hu) as I. rewrite C in I.
          apply in_map_iff in I. destruct I as [r [<- _]]. reflexivity. }
      destruct (updateIPSetDescriptorsOn_spec id [] (rd_ip_set_descriptors d) w1)
        as [sent [Hc Hs]]. fold plan in Hs.
      destruct (updateIPSetDescriptorsOn UpdateIPSet id [] (rd_ip_set_descriptors d) w1)
        as [w2 [e|]]; simpl in Hc, Hs.
      * destruct Hs as [done [failed [rest [cause [H1 [H2 [H3 H4]]]]]]].
        exists (map (fun c => CallUpdateIPSet (fst c) (snd c)) (map (pair id) sent)).
        simpl. rewrite updateRequests_sent. split; [|split; [|split; [|split; [|split]]]].
        -- rewrite Hc. unfold w1. simpl. rewrite <- app_assoc. reflexivity.
        -- apply Forall_forall. intros b Hb. rewrite Forall_forall in B. apply B.
           rewrite H1. rewrite H2 in Hb. apply in_app_or in Hb. apply in_or_app.
           destruct Hb as [Hb|[Hb|[]]]; [left; exact Hb | right; left; exact Hb].
        -- discriminate.
        -- intros c Hin. apply sent_calls_are_updates in Hin.
           destruct Hin as [b [E _]]. inversion H; subst. right. exists b. reflexivity.
        -- intros I. apply sent_calls_are_updates in I.
           destruct I as [b [E _]]. discriminate.
        -- intros _. inversion H; subst. split; [reflexivity | discriminate].
      * destruct Hs as [H1 H2]. subst sent.
        pose proof (resourceIPSetRead_calls d1 w2) as R.
        exists (map (fun c => CallUpdateIPSet (fst c) (snd c)) (map (pair id) plan)
                ++ [CallGetIPSet id]).
        assert (updateRequests
                  (map (fun c => CallUpdateIPSet (fst c) (snd c)) (map (pair id) plan)
                   ++ [CallGetIPSet id]) = plan) as U.
        { rewrite updateRequests_app, updateRequests_sent. simpl. apply app_nil_r. }
        rewrite U. split; [|split; [exact B|split; [discriminate|]]].
        -- rewrite R, Hc. unfold w1. simpl. rewrite <- !app_assoc. reflexivity.
        -- intros id' E. inversion E; subst id'. split; [|split].
           ++ intros c Hin. apply in_app_or in Hin. destruct Hin as [Hin|[<-|[]]].
              ** apply sent_calls_are_updates in Hin. destruct Hin as [b [E' _]].
                 right. exists b. exact E'.
              ** left. reflexivity.
           ++ intros _. split; [exact C | exact H2].
           ++ intros N. exfalso. apply N. apply in_or_app. right. left. reflexivity.
    + pose proof (resourceIPSetRead_calls d1 w1) as R.
      apply Nat.ltb_ge in G.
      exists [CallGetIPSet id]. split; [|split; [constructor|split; [discriminate|]]].
      * rewrite R. unfold w1. simpl. rewrite <- app_assoc. reflexivity.
      * intros id' E. inversion E; subst id'. split; [|split].
        -- intros c [<-|[]]. left. reflexivity.
        -- intros _. destruct (rd_ip_set_descriptors d); simpl in *; [|lia].
           split; [reflexivity | exact I].
        -- intros N. exfalso. apply N. left. reflexivity.
  - exists []. simpl. split; [reflexivity|]. split; [constructor|]. split.
    + intros err' E. inversion E; subst. auto.
    + discriminate.
Qed.

(** X13.  [resourceIPSetUpdate] never submits an empty [UpdateIPSet]
    request: with unchanged descriptors its only call is the read; with
    changed descriptors every request holds between 1 and 1000 operations.
    The read is made only once the whole plan from the prior to the new
    descriptors has been submitted and has succeeded; when it is not made,
    the data is untouched and a diagnostic is returned. *)
Theorem resourceIPSetUpdate_no_empty_request
    (d : IPSetResourceData) (w : World Remote WafCall) :
  let res := resourceIPSetUpdate clientPartition clientAccountID ARN_String
               GetIPSet UpdateIPSet d w in
  exists newCalls : list WafCall,
    calls (fst (fst res)) = calls w ++ newCalls /\
    Forall (fun b => 1 <= length b <= 1000) (updateRequests newCalls) /\
    (ipSetHasChange d = false -> newCalls = [CallGetIPSet (rd_id d)]) /\
    (ipSetHasChange d = true ->
     In (CallGetIPSet (rd_id d)) newCalls ->
     updateRequests newCalls =
       DiffIPSetDescriptors (rd_prior_ip_set_descriptors d) (rd_ip_set_descriptors d) /\
     allSucceed UpdateIPSet (rd_id d) (updateRequests newCalls) (remote w)) /\
    (~ In (CallGetIPSet (rd_id d)) newCalls ->
     snd (fst res) = d /\ snd res <> []).
Proof.
  intros res. subst res. unfold resourceIPSetUpdate.
  destruct (ipSetHasChange d) eqn:HC.
  - set (plan := DiffIPSetDescriptors (rd_prior_ip_set_descriptors d)
                   (rd_ip_set_descriptors d)).
    assert (Forall (fun b => 1 <= length b <= 1000) plan) as B.
    { apply plan_batches_bounded. apply sameSet_false_operations.
      unfold ipSetHasChange in HC. apply negb_true_iff in HC. exact HC. }
    destruct (updateIPSetDescriptorsOn_spec (rd_id d) (rd_prior_ip_set_descriptors d)
                (rd_ip_set_descriptors d) w) as [sent [Hc Hs]]. fold plan in Hs.
    destruct (updateIPSetDescriptorsOn UpdateIPSet (rd_id d)
                (rd_prior_ip_set_descriptors d) (rd_ip_set_descriptors d) w)
      as [w1 [e|]]; simpl in Hc, Hs.
    + destruct Hs as [done [failed [rest [cause [H1 [H2 [H3 H4]]]]]]].
      exists (map (fun c => CallUpdateIPSet (fst c) (snd c)) (map (pair (rd_id d)) sent)).
      simpl. rewrite updateRequests_sent.
      split; [exact Hc|]. split; [|split; [discriminate|split]].
      * apply Forall_forall. intros b Hb. rewrite Forall_forall in B. apply B.
        rewrite H1. rewrite H2 in Hb. apply in_app_or in Hb. apply in_or_app.
        destruct Hb as [Hb|[Hb|[]]]; [left; exact Hb | right; left; exact Hb].
      * intros _ I. apply sent_calls_are_updates in I.
        destruct I as [b [E _]]. discriminate.
      * intros _. split; [reflexivity | discriminate].
    + destruct Hs as [H1 H2]. subst sent.
      pose proof (resourceIPSetRead_calls d w1) as R.
      exists (map (fun c => CallUpdateIPSet (fst c) (snd c)) (map (pair (rd_id d)) plan)
              ++ [CallGetIPSet (rd_id d)]).
      assert (updateRequests
                (map (fun c => CallUpdateIPSet (fst c) (snd c))
                     (map (pair (rd_id d)) plan)
                 ++ [CallGetIPSet (rd_id d)]) = plan) as U.
      { rewrite updateRequests_app, updateRequests_sent. simpl. apply app_nil_r. }
      rewrite U. split; [|split; [exact B|split; [discriminate|split]]].
      * rewrite R, Hc, <- app_assoc. reflexivity.
      * intros _ _. split; [reflexivity | exact H2].
      * intros N. exfalso. apply N. apply in_or_app. right. left. reflexivity.
  - pose proof (resourceIPSetRead_calls d w) as R.
    exists [CallGetIPSet (rd_id d)].
    split; [exact R|]. split; [constructor|]. split; [reflexivity|].
    split; [discriminate|].
    intros N. exfalso. apply N. left. reflexivity.
Qed.

End IPSetResourceFacts.

(** [resourceIPSetDelete] on a set of two descriptors: when the update
    succeeds the set is emptied and then deleted; when it fails the set is
    not deleted. *)
Example resourceIPSetDelete_runs :
  let a := Descriptor "IPV4" "1.2.3.0/24" in
  let b := Descriptor "IPV4" "5.6.7.0/24" in
  let d := {| rd_id := "ipset-1"; rd_name := "blocked"; rd_arn := "";
              rd_ip_set_descriptors := [a; b];
              rd_prior_ip_set_descriptors := [a; b] |} in
  let w := {| remote := []; calls := [] |} in
  resourceIPSetDelete (sampleUpdateIPSet 5) sampleDeleteIPSet d w =
    ({| remote := [[deleteOf a; deleteOf b]];
        calls := [CallUpdateIPSet "ipset-1" [deleteOf a; deleteOf b];
                  CallDeleteIPSet "ipset-1"] |},
     []) /\
  resourceIPSetDelete (sampleUpdateIPSet 0) sampleDeleteIPSet d w =
    ({| remote := [];
        calls := [CallUpdateIPSet "ipset-1" [deleteOf a; deleteOf b]] |},
     [Errorf_s "deleting IPSetDescriptors: %s" []
        (Errorf_s "updating WAF IPSet: %s" []
           (AWSError "WAFInternalErrorException" "try again"))]).
Proof. split; reflexivity. Qed.

(** ** Strings *)

Lemma stripPrefix_app (p s : string) : stripPrefix p (p ++ s) = Some s.
Proof.
  induction p as [|a p IH]; simpl; [reflexivity|].
  rewrite Ascii.eqb_refl. exact IH.
Qed.

Lemma TrimPrefix_app (p s : string) : TrimPrefix (p ++ s) p = s.
Proof. unfold TrimPrefix. rewrite stripPrefix_app. reflexivity. Qed.

Lemma Split_length (s : string) (sep : ascii) :
  length (Split s sep) = S (countChar sep s).
Proof.
  induction s as [|c s IH]; simpl; [reflexivity|].
  destruct (Ascii.eqb c sep); simpl.
  - rewrite IH. reflexivity.
  - destruct (Split s sep) as [|piece pieces]; simpl in *; [discriminate | exact IH].
Qed.

Lemma Split_no_separator (s : string) (sep : ascii) :
  countChar sep s = 0 -> Split s sep = [s].
Proof.
  induction s as [|c s IH]; simpl; [reflexivity|].
  destruct (Ascii.eqb c sep); simpl; [discriminate|].
  intros H. rewrite (IH H). reflexivity.
Qed.

Lemma Split_app_separator (a b : string) (sep : ascii) :
  countChar sep a = 0 ->
  Split (a ++ String sep b) sep = a :: Split b sep.
Proof.
  induction a as [|c a IH]; simpl.
  - intros _. rewrite Ascii.eqb_refl. reflexivity.
  - destruct (Ascii.eqb c sep); simpl; [discriminate|].
    intros H. rewrite (IH H). reflexivity.
Qed.

(** ** SageMaker apps *)

Section SageMakerAppFacts.

Variable arnParse : string -> ARN + error.
Variable AppTypeJupyterServer AppTypeKernelGateway AppTypeTensorBoard : string.
Variable AppTypeRstudioServerPro AppTypeRsessionGateway : string.

(** X15.  [decodeAppID] undoes the composition of an app resource name: for
    parts without a slash, the resource [app/DOMAIN/PROFILE/TYPE/NAME] gives
    the four parts back, the type replaced by the SDK's spelling when it is
    one of the five lower-case names and kept as it is otherwise. *)
Theorem decodeAppID_of_parts
    (id : string) (appArn : ARN) (domainID profile appType appName : string) :
  arnParse id = inl appArn ->
  Resource appArn =
    ("app/" ++ domainID ++ "/" ++ profile ++ "/" ++ appType ++ "/" ++ appName)%string ->
  countChar "/" domainID = 0 ->
  countChar "/" profile = 0 ->
  countChar "/" appType = 0 ->
  countChar "/" appName = 0 ->
  exists ty : string,
    decodeAppID arnParse AppTypeJupyterServer AppTypeKernelGateway AppTypeTensorBoard
      AppTypeRstudioServerPro AppTypeRsessionGateway id =
      inl (domainID, profile, ty, appName) /\
    (appType = "jupyterserver"%string -> ty = AppTypeJupyterServer) /\
    (appType = "kernelgateway"%string -> ty = AppTypeKernelGateway) /\
    (appType = "tensorboard"%string -> ty = AppTypeTensorBoard) /\
    (appType = "rstudioserverpro"%string -> ty = AppTypeRstudioServerPro) /\
    (appType = "rsessiongateway"%string -> ty = AppTypeRsessionGateway) /\
    (appType <> "jupyterserver"%string -> appType <> "kernelgateway"%string ->
     appType <> "tensorboard"%string -> appType <> "rstudioserverpro"%string ->
     appType <> "rsessiongateway"%string -> ty = appType).
Proof.
  intros HP HR Hd Hp Ht Hn. unfold decodeAppID. rewrite HP, HR.
  change ("app/" ++ domainID ++ "/" ++ profile ++ "/" ++ appType ++ "/" ++ appName)%string
    with ("app/" ++ (domainID ++ String "/" (profile ++ String "/"
            (appType ++ String "/" appName))))%string.
  rewrite TrimPrefix_app.
  rewrite !Split_app_separator by assumption.
  rewrite (Split_no_separator appName "/"%char Hn).
  cbn [length Nat.eqb negb nth].
  eexists. split; [reflexivity|].
  repeat split.
  - intros ->. reflexivity.
  - intros ->. reflexivity.
  - intros ->. reflexivity.
  - intros ->. reflexivity.
  - intros ->. reflexivity.
  - intros N1 N2 N3 N4 N5.
    apply String.eqb_neq in N1, N2, N3, N4, N5.
    rewrite N1, N2, N3, N4, N5. reflexivity.
Qed.

(** X16.  Once [arn.Parse] accepts the ID, [decodeAppID] succeeds exactly
    when three slashes are left in the resource after the leading [app/] is
    removed, whatever stands between them; otherwise it returns the error
    that names what was left. *)
Theorem decodeAppID_three_slashes (id : string) (appArn : ARN) :
  arnParse id = inl appArn ->
  let appResourceName := TrimPrefix (Resource appArn) "app/" in
  let res := decodeAppID arnParse AppTypeJupyterServer AppTypeKernelGateway
               AppTypeTensorBoard AppTypeRstudioServerPro AppTypeRsessionGateway id in
  ((exists parts, res = inl parts) <-> countChar "/" appResourceName = 3) /\
  (countChar "/" appResourceName <> 3 -> res = inr (UnexpectedFormat appResourceName)).
Proof.
  intros HP appResourceName res. subst res. unfold decodeAppID. rewrite HP.
  fold appResourceName. rewrite Split_length.
  destruct (Nat.eq_dec (countChar "/" appResourceName) 3) as [E|E].
  - rewrite E. simpl negb. cbv iota. split; [|congruence].
    split; [intros _; reflexivity | intros _; eexists; reflexivity].
  - assert ((S (countChar "/" appResourceName) =? 4) = false) as F
      by (apply Nat.eqb_neq; lia).
    rewrite F. simpl. split; [|reflexivity].
    split; [intros [parts H]; discriminate | intros H; contradiction].
Qed.

End SageMakerAppFacts.

(** X15 on the ARN of a Jupyter server app. *)
Lemma decodeAppID_of_parts_witness :
  let appArn := {| Partition := "aws"; Service := "sagemaker"; Region := "us-west-2";
                   AccountID := "123456789012";
                   Resource := "app/d-abc/user1/jupyterserver/default" |} in
  sampleArnParse sampleAppID = inl appArn /\
  countChar "/" "d-abc" = 0 /\
  decodeAppID sampleArnParse "JupyterServer" "KernelGateway" "TensorBoard"
    "RStudioServerPro" "RSessionGateway" sampleAppID =
    inl ("d-abc", "user1", "JupyterServer", "default")%string.
Proof.
  intros appArn.
  assert (sampleArnParse sampleAppID = inl appArn) as HP by reflexivity.
  split; [exact HP|]. split; [reflexivity|].
  destruct (@decodeAppID_of_parts sampleArnParse "JupyterServer" "KernelGateway"
              "TensorBoard" "RStudioServerPro" "RSessionGateway"
              sampleAppID appArn "d-abc" "user1" "jupyterserver" "default"
              HP eq_refl eq_refl eq_refl eq_refl eq_refl)
    as [ty [E [J _]]].
  rewrite E, (J eq_refl). reflexivity.
Defined.

(** X16 on the same ARN: three slashes are left after [app/]. *)
Lemma decodeAppID_three_slashes_witness :
  let appArn := {| Partition := "aws"; Service := "sagemaker"; Region := "us-west-2";
                   AccountID := "123456789012";
                   Resource := "app/d-abc/user1/jupyterserver/default" |} in
  sampleArnParse sampleAppID = inl appArn /\
  countChar "/" (TrimPrefix (Resource appArn) "app/") = 3 /\
  exists parts,
    decodeAppID sampleArnParse "JupyterServer" "KernelGateway" "TensorBoard"
      "RStudioServerPro" "RSessionGateway" sampleAppID = inl parts.
Proof.
  intros appArn.
  assert (sampleArnParse sampleAppID = inl appArn) as HP by reflexivity.
  split; [exact HP|]. split; [reflexivity|].
  apply (proj1 (@decodeAppID_three_slashes sampleArnParse "JupyterServer"
                  "KernelGateway" "TensorBoard" "RStudioServerPro" "RSessionGateway"
                  sampleAppID appArn HP)).
  reflexivity.
Defined.

(** A resource with one part too few, and one whose parts are all empty. *)
Example decodeAppID_edge_cases :
  let parse resource (id : string) : ARN + error :=
    inl {| Partition := "aws"; Service := "sagemaker"; Region := "us-west-2";
           AccountID := "123456789012"; Resource := resource |} in
  decodeAppID (parse "app/d-abc/jupyterserver/default"%string) "JupyterServer"
    "KernelGateway" "TensorBoard" "RStudioServerPro" "RSessionGateway" "id" =
    inr (UnexpectedFormat "d-abc/jupyterserver/default") /\
  decodeAppID (parse "app////"%string) "JupyterServer" "KernelGateway" "TensorBoard"
    "RStudioServerPro" "RSessionGateway" "id" =
    inl (""%string, ""%string, ""%string, ""%string) /\
  decodeAppID (parse "d-abc/user1/KernelGateway/default"%string) "JupyterServer"
    "KernelGateway" "TensorBoard" "RStudioServerPro" "RSessionGateway" "id" =
    inl ("d-abc", "user1", "KernelGateway", "default")%string.
Proof. repeat split. Qed.

Section ResourceAppDeleteFacts.

Variable ErrCodeResourceNotFound : string.
Variable Remote : Type.
Variable DeleteApp :
  string -> string -> string -> option string -> option string ->
  Remote -> Remote * option error.
Variable WaitAppDeleted :
  string -> string -> string -> string -> Remote -> Remote * option error.

Lemma GetOk_None (v : string) : GetOk v = None <-> v = EmptyString.
Proof. destruct v; simpl; split; congruence. Qed.

Lemma GetOk_Some (v x : string) : GetOk v = Some x -> x = v /\ v <> EmptyString.
Proof. destruct v; simpl; intros H; inversion H; split; congruence. Qed.

(** X17.  How [resourceAppDelete] reads a failure of [DeleteApp].  A
    [ValidationException] whose message says that the app has already been
    deleted, or that it previously failed and was automatically deleted, is
    a success, and nothing is waited for.  [ResourceNotFound] is not an
    error either, but the wait for deletion is still made.  Any other error
    is reported, and nothing is waited for. *)
Theorem resourceAppDelete_delete_error
    (d : AppResourceData) (w : World Remote AppCall) (r1 : Remote) (e : error) :
  DeleteApp (app_name d) (app_type d) (app_domain_id d)
    (GetOk (app_user_profile_name d)) (GetOk (app_space_name d)) (remote w) =
    (r1, Some e) ->
  let res := resourceAppDelete ErrCodeResourceNotFound DeleteApp WaitAppDeleted d w in
  let del := CallDeleteApp (app_name d) (app_type d) (app_domain_id d)
               (GetOk (app_user_profile_name d)) (GetOk (app_space_name d)) in
  let gone :=
    errMessageContains e "ValidationException" "has already been deleted" ||
    errMessageContains e "ValidationException"
      "previously failed and was automatically deleted" in
  (gone = true ->
   snd res = [] /\ calls (fst res) = calls w ++ [del]) /\
  (gone = false -> errCodeEquals e ErrCodeResourceNotFound = false ->
   snd res = [Errorf_s "deleting SageMaker App (%s): %s" [app_id d] e] /\
   calls (fst res) = calls w ++ [del]) /\
  (gone = false -> errCodeEquals e ErrCodeResourceNotFound = true ->
   exists who, calls (fst res) =
     calls w ++ [del; CallWaitAppDeleted (app_domain_id d) who (app_type d) (app_name d)]).
Proof.
  intros H res del gone. subst res del gone. unfold resourceAppDelete, submit.
  destruct (GetOk (app_user_profile_name d)) as [u|] eqn:GU;
    destruct (GetOk (app_space_name d)) as [s|] eqn:GS;
    rewrite H;
    destruct (errMessageContains e "ValidationException" "has already been deleted" ||
              errMessageContains e "ValidationException"
                "previously failed and was automatically deleted");
    destruct (errCodeEquals e ErrCodeResourceNotFound); simpl;
    (split; [|split]); try (intros; discriminate); intros; try (split; reflexivity);
    match goal with
    | |- context [WaitAppDeleted ?a ?b ?c ?d1 ?r] =>
        destruct (WaitAppDeleted a b c d1 r) as [r2 [e2|]]; simpl;
        try destruct (errCodeEquals e2 ErrCodeResourceNotFound); simpl;
        eexists; rewrite <- app_assoc; reflexivity
    end.
Qed.

(** X18.  When [DeleteApp] succeeds, [resourceAppDelete] waits for the
    deletion of the app under its space name when one is set, under its user
    profile name otherwise; it returns no diagnostic exactly when the wait
    ends without error or with [ResourceNotFound]. *)
Theorem resourceAppDelete_wait
    (d : AppResourceData) (w : World Remote AppCall) (r1 : Remote) :
  DeleteApp (app_name d) (app_type d) (app_domain_id d)
    (GetOk (app_user_profile_name d)) (GetOk (app_space_name d)) (remote w) =
    (r1, None) ->
  let res := resourceAppDelete ErrCodeResourceNotFound DeleteApp WaitAppDeleted d w in
  let del := CallDeleteApp (app_name d) (app_type d) (app_domain_id d)
               (GetOk (app_user_profile_name d)) (GetOk (app_space_name d)) in
  exists who : string,
    (app_space_name d <> EmptyString -> who = app_space_name d) /\
    (app_space_name d = EmptyString -> who = app_user_profile_name d) /\
    calls (fst res) =
      calls w ++ [del; CallWaitAppDeleted (app_domain_id d) who (app_type d) (app_name d)] /\
    (snd res = [] <->
     match snd (WaitAppDeleted (app_domain_id d) who (app_type d) (app_name d) r1) with
     | None => True
     | Some e2 => errCodeEquals e2 ErrCodeResourceNotFound = true
     end).
Proof.
  intros H res del. subst res del. unfold resourceAppDelete, submit.
  destruct (GetOk (app_user_profile_name d)) as [u|] eqn:GU;
    destruct (GetOk (app_space_name d)) as [s|] eqn:GS;
    rewrite H; simpl;
    match goal with
    | |- context [WaitAppDeleted ?a ?b ?c ?d1 ?r] =>
        exists b; destruct (WaitAppDeleted a b c d1 r) as [r2 [e2|]]; simpl;
        try destruct (errCodeEquals e2 ErrCodeResourceNotFound); simpl
    end;
    try (apply GetOk_Some in GU; destruct GU as [-> GU]);
    try (apply GetOk_Some in GS; destruct GS as [-> GS]);
    try (apply GetOk_None in GU);
    try (apply GetOk_None in GS);
    (split; [intros N; try reflexivity; try contradiction; try congruence|]);
    (split; [intros N; try reflexivity; try contradiction; try congruence|]);
    (split; [rewrite <- app_assoc; reflexivity|]);
    split; intros; try reflexivity; try discriminate; try exact I; try congruence.
Qed.

End ResourceAppDeleteFacts.

(** X17 on an app that the service says has already been deleted. *)
Lemma resourceAppDelete_delete_error_witness :
  let e := AWSError "ValidationException"
             "App default in domain d-abc has already been deleted" in
  let w := {| remote := []; calls := [] |} in
  let res := resourceAppDelete "ResourceNotFound" (failingDeleteApp e)
               (endingWaitAppDeleted None) sampleApp w in
  failingDeleteApp e "default" "JupyterServer" "d-abc" None (Some "team-space"%string)
    (remote w) = ([], Some e) /\
  snd res = [] /\
  calls (fst res) =
    [CallDeleteApp "default" "JupyterServer" "d-abc" None (Some "team-space"%string)].
Proof.
  intros e w res.
  assert (failingDeleteApp e (app_name sampleApp) (app_type sampleApp)
            (app_domain_id sampleApp) (GetOk (app_user_profile_name sampleApp))
            (GetOk (app_space_name sampleApp)) (remote w) = ([], Some e)) as H
    by reflexivity.
  split; [exact H|].
  destruct (@resourceAppDelete_delete_error "ResourceNotFound" _ (failingDeleteApp e)
              (endingWaitAppDeleted None) sampleApp w [] e H) as [A _].
  exact (A eq_refl).
Defined.

(** X18 on an app in a space, whose wait ends with [ResourceNotFound]. *)
Lemma resourceAppDelete_wait_witness :
  let w := {| remote := []; calls := [] |} in
  let gone := Some (AWSError "ResourceNotFound" "no such app") in
  let res := resourceAppDelete "ResourceNotFound" acceptingDeleteApp
               (endingWaitAppDeleted gone) sampleApp w in
  acceptingDeleteApp "default" "JupyterServer" "d-abc" None (Some "team-space"%string)
    (remote w) = ([], None) /\
  snd res = [] /\
  calls (fst res) =
    [CallDeleteApp "default" "JupyterServer" "d-abc" None (Some "team-space"%string);
     CallWaitAppDeleted "d-abc" "team-space" "JupyterServer" "default"].
Proof.
  intros w gone res.
  assert (acceptingDeleteApp (app_name sampleApp) (app_type sampleApp)
            (app_domain_id sampleApp) (GetOk (app_user_profile_name sampleApp))
            (GetOk (app_space_name sampleApp)) (remote w) = ([], None)) as H
    by reflexivity.
  split; [exact H|].
  destruct (@resourceAppDelete_wait "ResourceNotFound" _ acceptingDeleteApp
              (endingWaitAppDeleted gone) sampleApp w [] H) as [who [S [_ [C D]]]].
  assert (who = "team-space"%string) as -> by (apply S; discriminate).
  split; [apply D; reflexivity | exact C].
Defined.

(** ** Transfer users *)

Lemma expandHomeDirectoryMappings_map (input : list homeDirectoryMapping) :
  expandHomeDirectoryMappings input =
  map (fun config => {| Entry := Some (hm_entry config);
                        Target := Some (hm_target config) |}) input.
Proof.
  unfold expandHomeDirectoryMappings.
  assert (forall acc,
            fold_left
              (fun mappings config =>
                 mappings ++ [{| Entry := Some (hm_entry config);
                                 Target := Some (hm_target config) |}])
              input acc =
            acc ++ map (fun config => {| Entry := Some (hm_entry config);
                                         Target := Some (hm_target config) |}) input)
    as G.
  { induction input as [|c input IH]; intros acc; simpl.
    - rewrite app_nil_r. reflexivity.
    - rewrite IH, <- app_assoc. reflexivity. }
  apply (G []).
Qed.

(** X19.  The two converters of [home_directory_mappings] undo each other:
    flattening what was expanded gives the configured mappings back, in
    order; expanding what was flattened gives the API mappings back when none
    of their fields is nil (a nil field comes back as the empty string). *)
Theorem homeDirectoryMappings_round_trip :
  (forall input : list homeDirectoryMapping,
      flattenHomeDirectoryMappings (expandHomeDirectoryMappings input) = input) /\
  (forall mappings : list HomeDirectoryMapEntry,
      Forall (fun m => Entry m <> None /\ Target m <> None) mappings ->
      expandHomeDirectoryMappings (flattenHomeDirectoryMappings mappings) = mappings) /\
  (forall mappings : list HomeDirectoryMapEntry,
      flattenHomeDirectoryMappings
        (expandHomeDirectoryMappings (flattenHomeDirectoryMappings mappings)) =
      flattenHomeDirectoryMappings mappings).
Proof.
  assert (forall input : list homeDirectoryMapping,
             flattenHomeDirectoryMappings (expandHomeDirectoryMappings input) = input)
    as R.
  { intros input. rewrite expandHomeDirectoryMappings_map.
    unfold flattenHomeDirectoryMappings. rewrite map_map. simpl.
    induction input as [|[e t] input IH]; simpl; [reflexivity|].
    rewrite IH. reflexivity. }
  split; [exact R|]. split.
  - intros mappings H. rewrite expandHomeDirectoryMappings_map.
    unfold flattenHomeDirectoryMappings. rewrite map_map. simpl.
    induction H as [|[e t] mappings [He Ht] _ IH]; simpl; [reflexivity|].
    rewrite IH. simpl in He, Ht.
    destruct e; [|congruence]. destruct t; [|congruence]. reflexivity.
  - intros mappings. apply R.
Qed.

(** X19 at a concrete input. *)
Lemma homeDirectoryMappings_round_trip_witness :
  let m := {| Entry := Some "/"%string; Target := Some "/bucket/home"%string |} in
  Forall (fun m => Entry m <> None /\ Target m <> None) [m] /\
  expandHomeDirectoryMappings (flattenHomeDirectoryMappings [m]) = [m].
Proof.
  intros m.
  assert (Forall (fun m => Entry m <> None /\ Target m <> None) [m]) as H
    by (constructor; [split; discriminate | constructor]).
  split; [exact H|].
  exact (proj1 (proj2 homeDirectoryMappings_round_trip) [m] H).
Defined.

(** X20.  [expandUserPOSIXUser] reads the first element only and answers nil
    for no element or a nil one; [flattenUserPOSIXUser] answers no element
    for nil.  Flattening what was expanded keeps the gid and the uid, and
    gives no secondary gids when the set is missing or empty. *)
Theorem userPOSIXUser_round_trip (ExpandInt64Set : list Z -> list (option Z)) :
  flattenUserPOSIXUser (expandUserPOSIXUser ExpandInt64Set []) = [] /\
  (forall rest, flattenUserPOSIXUser (expandUserPOSIXUser ExpandInt64Set (None :: rest)) = []) /\
  (forall m rest,
      exists gids : list Z,
        flattenUserPOSIXUser (expandUserPOSIXUser ExpandInt64Set (Some m :: rest)) =
          [{| ps_gid := pc_gid m; ps_uid := pc_uid m; ps_secondary_gids := gids |}] /\
        (pc_secondary_gids m = None \/ pc_secondary_gids m = Some [] -> gids = []) /\
        (forall v, pc_secondary_gids m = Some v -> v <> [] ->
                   gids = Int64ValueSlice (ExpandInt64Set v))).
Proof.
  split; [reflexivity|]. split; [reflexivity|].
  intros m rest. unfold expandUserPOSIXUser.
  destruct (pc_secondary_gids m) as [[|x v]|] eqn:E; simpl.
  - exists []. split; [reflexivity|]. split; [reflexivity|].
    intros v H N. inversion H; subst. congruence.
  - exists (Int64ValueSlice (ExpandInt64Set (x :: v))). split; [reflexivity|]. split.
    + intros [H|H]; discriminate.
    + intros v' H _. inversion H. reflexivity.
  - exists []. split; [reflexivity|]. split; [reflexivity|].
    intros v H. discriminate.
Qed.

Section UserDeleteFacts.

Variable Remote : Type.
Variable DeleteUser : string -> string -> Remote -> Remote * option error.
Variable waitUserDeleted : string -> string -> Remote -> Remote * option error.
Variable UserCreateResourceID : string -> string -> string.
Variable UserParseResourceID : string -> (string * string) + error.

(** X21.  [userDelete] waits for the deletion exactly when [DeleteUser]
    returned no error, and it returns no error exactly when [DeleteUser]
    answered [ResourceNotFoundException], or succeeded and the wait
    succeeded; a failed wait is returned wrapped. *)
Theorem userDelete_outcome (serverID userName : string)
    (w : World Remote TransferCall) :
  let res := userDelete DeleteUser waitUserDeleted UserCreateResourceID
               serverID userName w in
  let deleted := DeleteUser serverID userName (remote w) in
  let waited := waitUserDeleted serverID userName (fst deleted) in
  (snd deleted = None ->
   calls (fst res) =
     calls w ++ [CallDeleteUser serverID userName;
                 CallWaitUserDeleted serverID userName] /\
   remote (fst res) = fst waited /\
   snd res =
     match snd waited with
     | None => None
     | Some e2 =>
         Some (Errorf_w "deleting Transfer User (%s): waiting for completion: %w"
                 [UserCreateResourceID serverID userName] e2)
     end) /\
  (snd deleted <> None ->
   calls (fst res) = calls w ++ [CallDeleteUser serverID userName]) /\
  (snd res = None <->
   ErrCodeEquals (snd deleted) ErrCodeResourceNotFoundException = true \/
   (snd deleted = None /\ snd waited = None)).
Proof.
  intros res deleted waited. subst res deleted waited. unfold userDelete, submit.
  destruct (DeleteUser serverID userName (remote w)) as [r1 [e|]]; simpl.
  - destruct (errCodeEquals e ErrCodeResourceNotFoundException) eqn:C; simpl.
    + split; [discriminate|]. split; [reflexivity|]. split; auto.
    + split; [discriminate|]. split; [reflexivity|].
      split; [discriminate|]. intros [H|[H _]]; discriminate.
  - destruct (waitUserDeleted serverID userName r1) as [r2 [e2|]]; simpl.
    + split; [intros _; rewrite <- app_assoc; auto|]. split; [congruence|].
      split; [discriminate|]. intros [H|[_ H]]; discriminate.
    + split; [intros _; rewrite <- app_assoc; auto|]. split; [congruence|].
      split; auto.
Qed.

(** X22.  [resourceUserDelete] makes no call when the ID of the resource
    does not parse, and reports that; for an ID that parses, deleting a user
    that the service no longer holds reports nothing and stops after the one
    delete call. *)
Theorem resourceUserDelete_already_gone (id : string)
    (w : World Remote TransferCall) :
  let res := resourceUserDelete DeleteUser waitUserDeleted UserCreateResourceID
               UserParseResourceID id w in
  (forall err, UserParseResourceID id = inr err ->
     res = (w, [Errorf_s "parsing Transfer User ID: %s" [] err])) /\
  (forall serverID userName e,
     UserParseResourceID id = inl (serverID, userName) ->
     snd (DeleteUser serverID userName (remote w)) = Some e ->
     errCodeEquals e ErrCodeResourceNotFoundException = true ->
     snd res = [] /\
     calls (fst res) = calls w ++ [CallDeleteUser serverID userName]).
Proof.
  intros res. subst res. unfold resourceUserDelete. split.
  - intros err H. rewrite H. reflexivity.
  - intros serverID userName e H D C. rewrite H. unfold userDelete, submit.
    destruct (DeleteUser serverID userName (remote w)) as [r1 err]. simpl in D.
    subst err. simpl. rewrite C. simpl. auto.
Qed.

End UserDeleteFacts.

(** ** OpenSearch domain policies *)

Section DomainPolicyFacts.

Variable Remote : Type.
Variable NormalizeJsonString : string -> string * option error.
Variable PolicyToSet : string -> string -> string + error.
Variable NotFound : error -> bool.
Variable UpdateDomainConfig : string -> string -> Remote -> Remote * option error.
Variable waitForDomainUpdate : string -> TimeoutKey -> Remote -> Remote * option error.
Variable FindDomainByName : string -> Remote -> Remote * (option string + error).




(** X24.  [resourceDomainPolicyDelete] removes the policy by updating the
    domain configuration with the empty policy, whatever policy the resource
    holds, and then waits with the delete timeout; a failed update is
    reported and not waited for; there is no diagnostic exactly when both
    calls succeed. *)
Theorem resourceDomainPolicyDelete_protocol (d : DomainPolicyResourceData)
    (w : World Remote DomainPolicyCall) :
  let res := resourceDomainPolicyDelete UpdateDomainConfig waitForDomainUpdate d w in
  let updated := UpdateDomainConfig (dp_domain_name d) "" (remote w) in
  let waited := waitForDomainUpdate (dp_domain_name d) TimeoutDelete (fst updated) in
  (snd updated <> None ->
   calls (fst res) = calls w ++ [CallUpdateDomainConfig (dp_domain_name d) ""]) /\
  (snd updated = None ->
   calls (fst res) =
     calls w ++ [CallUpdateDomainConfig (dp_domain_name d) "";
                 CallWaitForDomainUpdate (dp_domain_name d) TimeoutDelete]) /\
  (snd res = [] <-> snd updated = None /\ snd waited = None).
Proof.
  intros res updated waited. subst res updated waited.
  unfold resourceDomainPolicyDelete, submit.
  destruct (UpdateDomainConfig (dp_domain_name d) "" (remote w)) as [r1 [e|]]; simpl.
  - split; [reflexivity|]. split; [discriminate|].
    split; [discriminate | intros [H _]; discriminate].
  - destruct (waitForDomainUpdate (dp_domain_name d) TimeoutDelete r1)
      as [r2 [e|]]; simpl.
    + split; [congruence|]. split; [intros _; rewrite <- app_assoc; reflexivity|].
      split; [discriminate | intros [_ H]; discriminate].
    + split; [congruence|]. split; [intros _; rewrite <- app_assoc; reflexivity|].
      split; auto.
Qed.

End DomainPolicyFacts.

(** ** The differ on Go slices: what it writes *)

Lemma fold_oldBodyInPlace_frame (limit : nat) (oldD : slice) :
  forall (k i : nat) (st : state),
    ptr (s_newD (fold_left (oldBodyInPlace limit oldD) (seq i k) st)) =
      ptr (s_newD st) /\
    len (s_newD (fold_left (oldBodyInPlace limit oldD) (seq i k) st)) <=
      len (s_newD st) /\
    forall p, p < ptr (s_newD st) \/ ptr (s_newD st) + len (s_newD st) <= p ->
              s_mem (fold_left (oldBodyInPlace limit oldD) (seq i k) st) p =
              s_mem st p.
Proof.
  induction k as [|k IH]; intros i st.
  - simpl. repeat split; auto.
  - simpl seq. simpl fold_left.
    destruct (IH (S i) (oldBodyInPlace limit oldD st i)) as [P [L M]].
    assert (ptr (s_newD (oldBodyInPlace limit oldD st i)) = ptr (s_newD st) /\
            len (s_newD (oldBodyInPlace limit oldD st i)) <= len (s_newD st) /\
            forall p, p < ptr (s_newD st) \/ ptr (s_newD st) + len (s_newD st) <= p ->
                      s_mem (oldBodyInPlace limit oldD st i) p = s_mem st p)
      as [P1 [L1 M1]].
    { unfold oldBodyInPlace.
      destruct (sliceContainsMap (elems (s_mem st) (s_newD st))
                  (s_mem st (ptr oldD + i))) as [idx|].
      - simpl. repeat split; try lia.
        intros p Hp.
        change (fst (removeAtInPlace (s_mem st) (s_newD st) idx) p = s_mem st p).
        apply removeAtInPlace_outside. exact Hp.
      - destruct (length (s_updates st) =? limit); simpl; repeat split; auto. }
    rewrite P, P1. split; [reflexivity|]. split; [lia|].
    intros p Hp. rewrite M by (rewrite P1; lia). apply M1. exact Hp.
Qed.

Lemma fst_DiffIPSetDescriptorsInPlace (mem : memory) (oldD newD : slice) :
  fst (DiffIPSetDescriptorsInPlace mem oldD newD) =
  s_mem (fold_left (oldBodyInPlace ipSetUpdatesLimit oldD) (seq 0 (len oldD))
           {| s_mem := mem; s_newD := newD;
              s_updates := []; s_updatesBatches := [] |}).
Proof.
  unfold DiffIPSetDescriptorsInPlace.
  match goal with
  | |- fst (let (_, _) := ?X in _) = _ => destruct X as [u bs]
  end.
  reflexivity.
Qed.

(** X14.  [DiffIPSetDescriptors] writes into the array of [newD] and nowhere
    else: every element outside the slice [newD] is left as it was.  On
    slices that do not overlap, [oldD] therefore reads the same afterwards,
    while the front of [newD]'s array holds the records that were not
    matched, the ones the plan inserts. *)
Theorem DiffIPSetDescriptorsInPlace_writes_only_newD
    (mem : memory) (oldD newD : slice) :
  (forall p, p < ptr newD \/ ptr newD + len newD <= p ->
             fst (DiffIPSetDescriptorsInPlace mem oldD newD) p = mem p) /\
  (separate oldD newD ->
   elems (fst (DiffIPSetDescriptorsInPlace mem oldD newD)) oldD = elems mem oldD /\
   elems (fst (DiffIPSetDescriptorsInPlace mem oldD newD))
         {| ptr := ptr newD;
            len := length (leftoverNew (elems mem oldD) (elems mem newD)) |} =
   leftoverNew (elems mem oldD) (elems mem newD)).
Proof.
  rewrite fst_DiffIPSetDescriptorsInPlace.
  set (st0 := {| s_mem := mem; s_newD := newD;
                 s_updates := []; s_updatesBatches := [] |}).
  destruct (fold_oldBodyInPlace_frame ipSetUpdatesLimit oldD (len oldD) 0 st0)
    as [P [L M]].
  split; [exact M|].
  intros Sep. split.
  - unfold elems. apply map_ext_in. intros j Hj. apply in_seq in Hj.
    apply M. simpl. unfold separate in Sep. lia.
  - pose proof (@fold_oldBody_separate ipSetUpdatesLimit mem oldD newD Sep
                  (len oldD) 0 st0
                  {| st_newD := elems mem newD;
                     st_updates := []; st_updatesBatches := [] |}
                  eq_refl eq_refl (le_n _) (fun j _ => eq_refl) eq_refl eq_refl eq_refl)
      as H.
    cbv zeta in H. destruct H as [H1 _].
    fold (elems mem oldD) in H1. rewrite fold_oldBody in H1. simpl st_newD in H1.
    set (st1 := fold_left (oldBodyInPlace ipSetUpdatesLimit oldD) (seq 0 (len oldD)) st0)
      in *.
    assert (len (s_newD st1) =
            length (leftoverNew (elems mem oldD) (elems mem newD))) as E.
    { rewrite <- H1. unfold elems. rewrite length_map, length_seq. reflexivity. }
    rewrite <- E, <- H1. simpl in P. rewrite <- P.
    destruct (s_newD st1). reflexivity.
Qed.

(** X14 at a concrete input. *)
Lemma DiffIPSetDescriptorsInPlace_writes_only_newD_witness :
  let a := Descriptor "IPV4" "1.2.3.0/24" in
  let b := Descriptor "IPV4" "5.6.7.0/24" in
  let c := Descriptor "IPV4" "9.9.9.0/24" in
  let mem := ofList [a; b; b; c; a] in
  let oldD := {| ptr := 0; len := 2 |} in
  let newD := {| ptr := 2; len := 3 |} in
  separate oldD newD /\
  elems mem newD = [b; c; a] /\
  elems (fst (DiffIPSetDescriptorsInPlace mem oldD newD)) {| ptr := 2; len := 1 |} = [c] /\
  elems (fst (DiffIPSetDescriptorsInPlace mem oldD newD)) newD = [c; c; a].
Proof.
  intros a b c mem oldD newD.
  assert (separate oldD newD) as Sep by (left; simpl; lia).
  split; [exact Sep|]. split; [reflexivity|]. split; [|reflexivity].
  exact (proj2 (proj2 (@DiffIPSetDescriptorsInPlace_writes_only_newD mem oldD newD) Sep)).
Defined.
